(** * A shallow embedding of [planner.py]: the vacuum-world planner.

    The planner searches the state graph of a grid world.  A state is the
    robot position together with the set of cells that are still dirty; the
    successor function is [move]; [dfs] explores with a last-in-first-out
    stack and [ucs] with a frontier scanned for its cheapest entry.

    Python integers are unbounded, so coordinates are in [Z]; the two
    counters and the accumulated cost only ever grow from 0 or 1 and are in
    [nat].  A Python [set] of coordinate pairs is a [gset (Z * Z)], a Python
    [list] is a [list] in the same order (index 0 first, [append] at the
    end), and a character of the grid is a one-character [string], which is
    what Python has. *)

From stdpp Require Import base numbers list sorting strings gmap sets.

Set Warnings "-clear-no-such-hyp".

(** ** Exceptions

    The only ways the search functions can leave abnormally are a failed
    list subscript and a failed dictionary subscript. *)

Inductive exn : Type :=
  | IndexError
  | KeyError.

Inductive res (A : Type) : Type :=
  | Ok (a : A)
  | Raise (e : exn).

Arguments Ok {A} a.
Arguments Raise {A} e.

(** [res] is an error monad; [x ← m; k] runs [k] unless [m] raised. *)
Global Instance res_ret : MRet res := λ A a, Ok a.
Global Instance res_bind : MBind res := λ A B k m,
  match m with
  | Ok a => k a
  | Raise e => Raise e
  end.

(** ** Data *)

Abbreviation position := (Z * Z)%type.
Abbreviation dirtyset := (gset (Z * Z)).
Abbreviation state := ((Z * Z) * gset (Z * Z))%type.
Abbreviation grid := (list (list string)).

(** The five action letters.  They live in a module of their own so that
    [Act.S] and [Act.N] do not hide the successor of [nat] and the type of
    binary naturals. *)
Module Act.
Inductive Action : Type := N | S | E | W | V.
End Act.

Abbreviation Action := Act.Action.

Global Instance Action_eq_dec : EqDecision Action.
Proof. solve_decision. Defined.

(** [ACTIONS = ['N', 'S', 'E', 'W', 'V']] *)
Definition ACTIONS : list Action := [Act.N; Act.S; Act.E; Act.W; Act.V].

(** The dictionary [MOVES]; it has no entry for ['V']. *)
Definition MOVES (action : Action) : option (Z * Z) :=
  match action with
  | Act.N => Some (-1, 0)%Z
  | Act.S => Some (1, 0)%Z
  | Act.E => Some (0, 1)%Z
  | Act.W => Some (0, -1)%Z
  | Act.V => None
  end.

(** [l[i]] on a Python list: a negative subscript counts from the end, and
    a subscript outside the list raises [IndexError]. *)
Definition getitem {A : Type} (l : list A) (i : Z) : res A :=
  let j := if decide (i < 0)%Z then (Z.of_nat (length l) + i)%Z else i in
  if decide (0 ≤ j)%Z then
    match l !! Z.to_nat j with
    | Some x => Ok x
    | None => Raise IndexError
    end
  else Raise IndexError.

(** ** The successor generator [move]

    [move] returns [(None, None)] to reject an action; that is [Ok None]
    here, and an accepted action is [Ok (Some (new_robot_pos, new_dirty))].
    The conjunction of the bounds test is evaluated left to right and stops
    at the first false conjunct, so [GRID[0]] is only read once
    [new_r < len(GRID)] is known. *)
Definition move (GRID : grid) (robot_pos : position) (dirty : dirtyset)
    (action : Action) : res (option state) :=
  let '(r, c) := robot_pos in
  if decide (action = Act.V) then
    if decide (robot_pos ∈ dirty) then
      let new_dirty := dirty ∖ {[robot_pos]} in
      Ok (Some (robot_pos, new_dirty))
    else Ok None
  else
    match MOVES action with
    | None => Raise KeyError
    | Some (dr, dc) =>
        let new_r := (r + dr)%Z in
        let new_c := (c + dc)%Z in
        if decide (0 ≤ new_r < Z.of_nat (length GRID))%Z then
          row0 ← getitem GRID 0 ;
          if decide (0 ≤ new_c < Z.of_nat (length row0))%Z then
            row ← getitem GRID new_r ;
            cell ← getitem row new_c ;
            if decide (cell ≠ "#") then Ok (Some ((new_r, new_c), dirty))
            else Ok None
          else Ok None
        else Ok None
    end.

(** ** The canonical key of a state

    [state_id = (robot_pos, tuple(sorted(dirty)))]: the dirty cells in
    increasing order, pairs being compared lexicographically. *)
Definition pos_le (p q : position) : Prop :=
  (p.1 < q.1)%Z ∨ (p.1 = q.1 ∧ p.2 ≤ q.2)%Z.

Global Instance pos_le_dec : RelDecision pos_le.
Proof. intros p q. unfold pos_le. apply _. Defined.

Definition sorted (dirty : dirtyset) : list position :=
  merge_sort pos_le (elements dirty).

Abbreviation state_key := ((Z * Z) * list (Z * Z))%type.

Definition state_id (s : state) : state_key := (s.1, sorted s.2).

(** The value returned by a search: the path or [None], then
    [nodes_generated] and [nodes_expanded]. *)
Abbreviation answer := (option (list Action) * nat * nat)%type.

(** ** The [while] loops

    Both searches are a [while] loop whose body either returns from the
    function ([inr]) or goes round again with new values of the local
    variables ([inl]).  [while body fuel v] runs the loop for at most
    [fuel] turns; [None] means that the turns ran out before the function
    left.  [turns body n v] is the value of the variables after [n] full
    turns, when the loop is still running then. *)
Fixpoint while {Vars : Type} (body : Vars → res (Vars + answer)) (fuel : nat)
    (v : Vars) : option (res answer) :=
  match fuel with
  | 0 => None
  | S fuel' =>
      match body v with
      | Raise e => Some (Raise e)
      | Ok (inr a) => Some (Ok a)
      | Ok (inl v') => while body fuel' v'
      end
  end.

Fixpoint turns {Vars : Type} (body : Vars → res (Vars + answer)) (n : nat)
    (v : Vars) : option Vars :=
  match n with
  | 0 => Some v
  | S n' =>
      match body v with
      | Ok (inl v') => turns body n' v'
      | _ => None
      end
  end.

(** ** Depth-first search *)

Module Dfs.
Record vars : Type := Vars {
  stack : list (state * list Action);
  visited : gset state_key;
  nodes_generated : nat;
  nodes_expanded : nat
}.
End Dfs.

(** [stack.pop()]: the last element of the list, and the list without it. *)
Fixpoint pop {A : Type} (l : list A) : option (list A * A) :=
  match l with
  | [] => None
  | x :: l' =>
      match pop l' with
      | None => Some ([], x)
      | Some (front, y) => Some (x :: front, y)
      end
  end.

(** The [for action in ACTIONS] loop of [dfs], threading the two variables
    it updates. *)
Fixpoint dfs_for (GRID : grid) (robot_pos : position) (dirty : dirtyset)
    (path : list Action) (actions : list Action)
    (stk : list (state * list Action)) (nodes_generated : nat)
    : res (list (state * list Action) * nat) :=
  match actions with
  | [] => Ok (stk, nodes_generated)
  | action :: rest =>
      new ← move GRID robot_pos dirty action ;
      match new with
      | Some new_state =>
          dfs_for GRID robot_pos dirty path rest
            (stk ++ [(new_state, path ++ [action])]) (S nodes_generated)
      | None => dfs_for GRID robot_pos dirty path rest stk nodes_generated
      end
  end.

(** One turn of the [while stack] loop: either the function returns
    ([inr]) or the loop goes round again with new variables ([inl]). *)
Definition dfs_body (GRID : grid) (v : Dfs.vars) : res (Dfs.vars + answer) :=
  match pop (Dfs.stack v) with
  | None => Ok (inr (None, Dfs.nodes_generated v, Dfs.nodes_expanded v))
  | Some (stk, (st, path)) =>
      let nodes_expanded := S (Dfs.nodes_expanded v) in
      let '(robot_pos, dirty) := st in
      if decide (size dirty = 0) then
        Ok (inr (Some path, Dfs.nodes_generated v, nodes_expanded))
      else
        let sid := state_id (robot_pos, dirty) in
        if decide (sid ∈ Dfs.visited v) then
          Ok (inl (Dfs.Vars stk (Dfs.visited v) (Dfs.nodes_generated v) nodes_expanded))
        else
          '(stk', gen') ← dfs_for GRID robot_pos dirty path ACTIONS stk
                             (Dfs.nodes_generated v) ;
          Ok (inl (Dfs.Vars stk' ({[sid]} ∪ Dfs.visited v) gen' nodes_expanded))
  end.

Definition dfs_init (initial_state : state) : Dfs.vars :=
  Dfs.Vars [(initial_state, [])] ∅ 1 0.

Definition dfs (GRID : grid) (fuel : nat) (initial_state : state) : option (res answer) :=
  while (dfs_body GRID) fuel (dfs_init initial_state).

(** ** Uniform-cost search *)

Abbreviation ucs_entry := (nat * state * list Action)%type.

Module Ucs.
Record vars : Type := Vars {
  frontier : list ucs_entry;
  visited : gset state_key;
  nodes_generated : nat;
  nodes_expanded : nat
}.
End Ucs.

Definition entry_cost (e : ucs_entry) : nat := e.1.1.

(** The scan for the cheapest entry:
    [for i in range(1, len(frontier)): if frontier[i][0] <
    frontier[lowest_index][0]: lowest_index = i].  Both subscripts are
    inside the list, so a failed lookup leaves [lowest_index] as it is. *)
Definition scan_step (frontier : list ucs_entry) (lowest_index i : nat) : nat :=
  match frontier !! i, frontier !! lowest_index with
  | Some e, Some lowest =>
      if decide (entry_cost e < entry_cost lowest) then i else lowest_index
  | _, _ => lowest_index
  end.

Definition lowest_index (frontier : list ucs_entry) : nat :=
  foldl (scan_step frontier) 0 (seq 1 (length frontier - 1)).

Fixpoint ucs_for (GRID : grid) (robot_pos : position) (dirty : dirtyset)
    (cost : nat) (path : list Action) (actions : list Action)
    (fr : list ucs_entry) (nodes_generated : nat)
    : res (list ucs_entry * nat) :=
  match actions with
  | [] => Ok (fr, nodes_generated)
  | action :: rest =>
      new ← move GRID robot_pos dirty action ;
      match new with
      | Some new_state =>
          ucs_for GRID robot_pos dirty cost path rest
            (fr ++ [(cost + 1, new_state, path ++ [action])]) (S nodes_generated)
      | None => ucs_for GRID robot_pos dirty cost path rest fr nodes_generated
      end
  end.

Definition ucs_body (GRID : grid) (v : Ucs.vars) : res (Ucs.vars + answer) :=
  match Ucs.frontier v with
  | [] => Ok (inr (None, Ucs.nodes_generated v, Ucs.nodes_expanded v))
  | _ :: _ =>
      let i := lowest_index (Ucs.frontier v) in
      match Ucs.frontier v !! i with
      | None => Raise IndexError
      | Some (cost, st, path) =>
          let fr := delete i (Ucs.frontier v) in
          let nodes_expanded := S (Ucs.nodes_expanded v) in
          let '(robot_pos, dirty) := st in
          if decide (size dirty = 0) then
            Ok (inr (Some path, Ucs.nodes_generated v, nodes_expanded))
          else
            let sid := state_id (robot_pos, dirty) in
            if decide (sid ∈ Ucs.visited v) then
              Ok (inl (Ucs.Vars fr (Ucs.visited v) (Ucs.nodes_generated v) nodes_expanded))
            else
              '(fr', gen') ← ucs_for GRID robot_pos dirty cost path ACTIONS fr
                               (Ucs.nodes_generated v) ;
              Ok (inl (Ucs.Vars fr' ({[sid]} ∪ Ucs.visited v) gen' nodes_expanded))
      end
  end.

Definition ucs_init (initial_state : state) : Ucs.vars :=
  Ucs.Vars [(0, initial_state, [])] ∅ 1 0.

Definition ucs (GRID : grid) (fuel : nat) (initial_state : state) : option (res answer) :=
  while (ucs_body GRID) fuel (ucs_init initial_state).

(** ** Replaying a path

    [replay GRID s path] applies the actions of [path] in order through
    [move], starting from [s]; it is [None] as soon as a step is rejected
    (or raises). *)
Fixpoint replay (GRID : grid) (s : state) (path : list Action) : option state :=
  match path with
  | [] => Some s
  | action :: rest =>
      match move GRID s.1 s.2 action with
      | Ok (Some s') => replay GRID s' rest
      | _ => None
      end
  end.

(** ** Specification vocabulary *)

(** A grid is a [rows × columns] array: every row has [columns] cells. *)
Definition rectangular (GRID : grid) : Prop :=
  ∃ columns : nat, Forall (λ row, length row = columns) GRID.

(** The cell at a position, when the grid has one there. *)
Definition cell_at (GRID : grid) (p : position) : option string :=
  if decide (0 ≤ p.1 ∧ 0 ≤ p.2)%Z then
    row ← GRID !! Z.to_nat p.1; row !! Z.to_nat p.2
  else None.

Definition within_bounds (GRID : grid) (p : position) : Prop :=
  is_Some (cell_at GRID p).

Definition is_wall (GRID : grid) (p : position) : Prop :=
  cell_at GRID p = Some "#".

(** A unit step along one axis. *)
Definition unit_delta (d : Z * Z) : Prop :=
  (Z.abs d.1 + Z.abs d.2 = 1)%Z.

(** A state is a goal when nothing is dirty; a goal is reachable from [s]
    when some action sequence replays to one. *)
Definition is_goal (s : state) : Prop := s.2 = ∅.

Definition reaches_goal (GRID : grid) (s : state) (path : list Action) : Prop :=
  ∃ s', replay GRID s path = Some s' ∧ is_goal s'.

Definition goal_reachable (GRID : grid) (s : state) : Prop :=
  ∃ path, reaches_goal GRID s path.

(** ** The two searches as one transition system

    [dfs] and [ucs] differ only in which entry they take from the frontier
    and in the cost [ucs] carries along.  A [config] is what they share:
    the frontier as a list of nodes (state and path so far), the visited
    set and the two counters. *)

Abbreviation node := (((Z * Z) * gset (Z * Z)) * list Action)%type.

Record config : Type := Config {
  front : list node;
  seen : gset state_key;
  generated : nat;
  expanded : nat
}.

(** The accepted actions of a state, in the order of [actions], each with
    the state it leads to. *)
Fixpoint successors (GRID : grid) (s : state) (actions : list Action)
    : list (Action * state) :=
  match actions with
  | [] => []
  | action :: rest =>
      match move GRID s.1 s.2 action with
      | Ok (Some s') => (action, s') :: successors GRID s rest
      | _ => successors GRID s rest
      end
  end.

Definition children (GRID : grid) (s : state) (path : list Action) : list node :=
  (λ '(action, s'), (s', path ++ [action])) <$> successors GRID s ACTIONS.

(** One turn of either loop, when no exception is raised. *)
Inductive search_step (GRID : grid) : config → config + answer → Prop :=
  | step_exhausted vis gen exp :
      search_step GRID (Config [] vis gen exp) (inr (None, gen, exp))
  | step_goal l1 l2 s path vis gen exp :
      is_goal s →
      search_step GRID (Config (l1 ++ (s, path) :: l2) vis gen exp)
        (inr (Some path, gen, S exp))
  | step_skip l1 l2 s path vis gen exp :
      ¬ is_goal s → state_id s ∈ vis →
      search_step GRID (Config (l1 ++ (s, path) :: l2) vis gen exp)
        (inl (Config (l1 ++ l2) vis gen (S exp)))
  | step_expand l1 l2 s path vis gen exp :
      ¬ is_goal s → state_id s ∉ vis →
      search_step GRID (Config (l1 ++ (s, path) :: l2) vis gen exp)
        (inl (Config ((l1 ++ l2) ++ children GRID s path) ({[state_id s]} ∪ vis)
                (gen + length (children GRID s path)) (S exp))).

Definition dfs_view (v : Dfs.vars) : config :=
  Config (Dfs.stack v) (Dfs.visited v) (Dfs.nodes_generated v) (Dfs.nodes_expanded v).

Definition entry_node (e : ucs_entry) : node := (e.1.2, e.2).

Definition ucs_view (v : Ucs.vars) : config :=
  Config (entry_node <$> Ucs.frontier v) (Ucs.visited v) (Ucs.nodes_generated v) (Ucs.nodes_expanded v).

(** What holds of the shared part at the head of every turn of a search
    started in [init]. *)
Record search_inv (GRID : grid) (init : state) (c : config) : Prop := SearchInv {
  inv_paths : ∀ s path, (s, path) ∈ front c → replay GRID init path = Some s;
  inv_count : generated c = expanded c + length (front c);
  inv_init : state_id init ∈ seen c ∨ ∃ path, (init, path) ∈ front c;
  inv_closed : ∀ s action s',
    state_id s ∈ seen c → move GRID s.1 s.2 action = Ok (Some s') →
    state_id s' ∈ seen c ∨ ∃ path, (s', path) ∈ front c;
  inv_nongoal : ∀ s, state_id s ∈ seen c → ¬ is_goal s
}.

(** What holds of the value a search returns. *)
Definition answer_ok (GRID : grid) (init : state) (a : answer) : Prop :=
  let '(found, gen, exp) := a in
  exp ≤ gen ∧
  match found with
  | Some path => reaches_goal GRID init path
  | None => ¬ goal_reachable GRID init ∧ exp = gen
  end.

(** ** The finite state space

    Every state a search meets has the robot where it started or inside
    [len(GRID) × len(GRID[0])], and its dirty cells among the initial
    ones. *)
Definition columns_of (GRID : grid) : nat := length (default [] (head GRID)).

Definition in_universe (GRID : grid) (init s : state) : Prop :=
  (s.1 = init.1 ∨
   (0 ≤ s.1.1 < Z.of_nat (length GRID) ∧ 0 ≤ s.1.2 < Z.of_nat (columns_of GRID))%Z) ∧
  s.2 ⊆ init.2.

Definition grid_positions (GRID : grid) : list position :=
  r ← seq 0 (length GRID); c ← seq 0 (columns_of GRID); [(Z.of_nat r, Z.of_nat c)].

Fixpoint powerlist {A : Type} (l : list A) : list (list A) :=
  match l with
  | [] => [[]]
  | x :: l' => powerlist l' ++ (cons x <$> powerlist l')
  end.

Definition universe (GRID : grid) (init : state) : gset state_key :=
  list_to_set (p ← init.1 :: grid_positions GRID;
               d ← powerlist (elements init.2);
               [state_id (p, list_to_set d)]).

(** The quantity that decreases at every turn: five for each state not yet
    visited (a visit pushes at most five entries), one for each entry
    waiting. *)
Definition measure (GRID : grid) (init : state) (c : config) : nat :=
  5 * size (universe GRID init ∖ seen c) + length (front c).

(** [i] is the first index of [frontier] that holds an entry of least
    cost: no entry is cheaper, and every entry before it costs strictly
    more. *)
Definition first_cheapest (frontier : list ucs_entry) (i : nat) : Prop :=
  ∃ e, frontier !! i = Some e ∧
    (∀ j e', frontier !! j = Some e' → entry_cost e ≤ entry_cost e') ∧
    (∀ j e', j < i → frontier !! j = Some e' → entry_cost e < entry_cost e').

(** ** The invariant that makes [ucs] optimal

    [g] records, for every visited key, the cost at which its state was
    taken from the frontier.  Costs are path lengths; no frontier entry is
    cheaper than a visited state; and every edge out of a visited state
    leads to a state that is visited or waiting, one step dearer at most. *)
Record ucs_inv (GRID : grid) (init : state) (g : state_key → nat) (v : Ucs.vars)
    : Prop := UcsInv {
  ucs_inv_cost : ∀ c s path, (c, s, path) ∈ Ucs.frontier v → length path = c;
  ucs_inv_mono : ∀ k e, k ∈ Ucs.visited v → e ∈ Ucs.frontier v → g k ≤ entry_cost e;
  ucs_inv_init :
    (state_id init ∈ Ucs.visited v ∧ g (state_id init) = 0) ∨
    ∃ path, (0, init, path) ∈ Ucs.frontier v;
  ucs_inv_edge : ∀ s action s',
    state_id s ∈ Ucs.visited v → move GRID s.1 s.2 action = Ok (Some s') →
    (state_id s' ∈ Ucs.visited v ∧ g (state_id s') ≤ g (state_id s) + 1) ∨
    (∃ c path, (c, s', path) ∈ Ucs.frontier v ∧ c ≤ g (state_id s) + 1);
  ucs_inv_nongoal : ∀ s, state_id s ∈ Ucs.visited v → ¬ is_goal s
}.

(** The entries [ucs] appends when it expands [s], reached at [cost] by
    [path]. *)
Definition ucs_children (GRID : grid) (cost : nat) (s : state) (path : list Action)
    : list ucs_entry :=
  (λ '(action, s'), (cost + 1, s', path ++ [action])) <$> successors GRID s ACTIONS.

(** The least number of actions that reach a goal from [s]. *)
Definition shortest_distance (GRID : grid) (s : state) (n : nat) : Prop :=
  (∃ path, reaches_goal GRID s path ∧ length path = n) ∧
  (∀ path, reaches_goal GRID s path → n ≤ length path).

(** The turn that starts from [v] expands [s]: it takes [s] from the
    frontier, finds it neither a goal nor visited, and so runs the
    [for action in ACTIONS] loop on it. *)
Definition dfs_expands (v : Dfs.vars) (s : state) : Prop :=
  ∃ stk path, pop (Dfs.stack v) = Some (stk, (s, path)) ∧
    ¬ is_goal s ∧ state_id s ∉ Dfs.visited v.

Definition ucs_expands (v : Ucs.vars) (s : state) : Prop :=
  ∃ cost path, Ucs.frontier v !! lowest_index (Ucs.frontier v) = Some (cost, s, path) ∧
    ¬ is_goal s ∧ state_id s ∉ Ucs.visited v.

(** A bound on the number of turns of either loop. *)
Definition turn_bound (GRID : grid) (init : state) : nat :=
  5 * size (universe GRID init) + 2.

(** The worlds of the concrete scenarios: a single cell, a corridor of two
    cells, a corridor whose dirty cell lies behind a wall, and a list of
    rows that is not a [rows × columns] array. *)
Definition one_cell (cell : string) : grid := [[cell]].
Definition corridor : grid := [["@"; "*"]].
Definition walled : grid := [["@"; "#"; "*"]].
Definition ragged : grid := [["@"; "_"]; ["*"]].

(** Loop variables of [ucs] in the corridor, with two entries of cost 1
    waiting behind one of cost 2. *)
Definition tie_vars : Ucs.vars :=
  Ucs.Vars [(2, ((0, 1)%Z, ∅), [Act.E; Act.V]);
           (1, ((0, 0)%Z, {[ (0, 1)%Z ]}), [Act.W]);
           (1, ((0, 1)%Z, {[ (0, 1)%Z ]}), [Act.E])] ∅ 4 1.

(** ** Reading the initial state off a grid

    [find_robot_and_dirty] walks the grid row by row and cell by cell.
    [find_in_row] is its inner loop over [enumerate(row)], from column [c]
    on, and [find_in_rows] its outer loop over [enumerate(grid)], from row
    [r] on; both thread the two variables the loops update.  The robot
    position starts as [None].  ([main], which decodes the world file,
    calls this function and a search, and prints, is input and output and
    is not part of this development.) *)
Fixpoint find_in_row (r c : nat) (row : list string)
    (robot_pos : option position) (dirty : dirtyset) : option position * dirtyset :=
  match row with
  | [] => (robot_pos, dirty)
  | cell :: rest =>
      if decide (cell = "@") then
        find_in_row r (S c) rest (Some (Z.of_nat r, Z.of_nat c)) dirty
      else if decide (cell = "*") then
        find_in_row r (S c) rest robot_pos ({[ (Z.of_nat r, Z.of_nat c) ]} ∪ dirty)
      else find_in_row r (S c) rest robot_pos dirty
  end.

Fixpoint find_in_rows (r : nat) (rows : list (list string))
    (robot_pos : option position) (dirty : dirtyset) : option position * dirtyset :=
  match rows with
  | [] => (robot_pos, dirty)
  | row :: rest =>
      let '(robot_pos', dirty') := find_in_row r 0 row robot_pos dirty in
      find_in_rows (S r) rest robot_pos' dirty'
  end.

Definition find_robot_and_dirty (GRID : grid) : option position * dirtyset :=
  find_in_rows 0 GRID None ∅.

(** ** More vocabulary *)

(** The robot stands on a cell of the grid that is not a wall. *)
Definition on_open_cell (GRID : grid) (p : position) : Prop :=
  ∃ cell, cell_at GRID p = Some cell ∧ cell ≠ "#".

(** The states a path goes through, the first one included, up to the
    first step that is not accepted. *)
Fixpoint trace (GRID : grid) (s : state) (path : list Action) : list state :=
  s :: match path with
       | [] => []
       | action :: rest =>
           match move GRID s.1 s.2 action with
           | Ok (Some s') => trace GRID s' rest
           | _ => []
           end
       end.

(** The number of cleaning actions in a path. *)
Definition cleanings (path : list Action) : nat :=
  length (filter (λ action, action = Act.V) path).

(** Bounds that relate the counters, the visited set and the paths
    waiting in the frontier. *)
Definition effort_inv (c : config) : Prop :=
  1 ≤ generated c ∧
  generated c ≤ 5 * expanded c + 1 ∧
  size (seen c) ≤ expanded c ∧
  ∀ s path, (s, path) ∈ front c → length path ≤ expanded c.

(** Every path waiting in the frontier went through visited states only,
    and through each of them once. *)
Definition simple_inv (GRID : grid) (init : state) (c : config) : Prop :=
  ∀ s path before, (s, path) ∈ front c →
    trace GRID init path = before ++ [s] →
    NoDup before ∧ ∀ t, t ∈ before → state_id t ∈ seen c.

(** The frontier of [ucs] holds at most two cost levels, next to each
    other. *)
Definition layered (fr : list ucs_entry) : Prop :=
  ∀ e e', e ∈ fr → e' ∈ fr → entry_cost e ≤ entry_cost e' + 1.

(** A grid with two robots and two dirty cells, one row shorter than the
    others. *)
Definition two_robots : grid := [["@"; "*"; "#"]; ["_"; "@"]; ["*"; "_"; "_"]].

(** Every visited key is the key of a state that some path reaches from
    [init] and that is not a goal. *)
Definition seen_inv (GRID : grid) (init : state) (c : config) : Prop :=
  ∀ k, k ∈ seen c → ∃ s path,
    k = state_id s ∧ replay GRID init path = Some s ∧ ¬ is_goal s.

(** * Properties *)

(** ** Subscripts, [pop] and the canonical key *)

Lemma getitem_nonneg {A : Type} (l : list A) (i : Z) :
  (0 ≤ i)%Z →
  getitem l i = match l !! Z.to_nat i with Some x => Ok x | None => Raise IndexError end.
Proof.
  intros Hi. unfold getitem.
  destruct (decide (i < 0)%Z) as [?|_]; [lia|].
  destruct (decide (0 ≤ i)%Z); [done|lia].
Qed.

Lemma pop_None {A : Type} (l : list A) : pop l = None ↔ l = [].
Proof.
  destruct l as [|x l]; simpl; [done|].
  destruct (pop l) as [[front y]|]; done.
Qed.

Lemma pop_snoc {A : Type} (l : list A) (y : A) : pop (l ++ [y]) = Some (l, y).
Proof.
  induction l as [|x l IH]; simpl; [done|]. by rewrite IH.
Qed.

Lemma pop_Some {A : Type} (l front : list A) (y : A) :
  pop l = Some (front, y) ↔ l = front ++ [y].
Proof.
  split; [|intros ->; apply pop_snoc].
  revert front. induction l as [|x l IH]; intros front; simpl; [done|].
  destruct (pop l) as [[front' y']|] eqn:Hp.
  - intros [= <- <-]. by rewrite (IH front').
  - intros [= <- <-]. by apply pop_None in Hp as ->.
Qed.

Global Instance pos_le_total : Total pos_le.
Proof. intros [a b] [c d]. unfold pos_le. simpl. lia. Qed.

Global Instance pos_le_trans : Transitive pos_le.
Proof. intros [a b] [c d] [e f]. unfold pos_le. simpl. lia. Qed.

Global Instance pos_le_antisymm : AntiSymm (=) pos_le.
Proof.
  intros [a b] [c d]. unfold pos_le. simpl. intros H1 H2.
  f_equal; lia.
Qed.

Lemma elem_of_sorted (dirty : dirtyset) (p : position) :
  p ∈ sorted dirty ↔ p ∈ dirty.
Proof.
  unfold sorted. rewrite merge_sort_Permutation. apply elem_of_elements.
Qed.

Lemma sorted_inj (d1 d2 : dirtyset) : sorted d1 = sorted d2 → d1 = d2.
Proof.
  intros Heq. apply set_eq. intros p.
  by rewrite <- !elem_of_sorted, Heq.
Qed.

Lemma state_id_inj (s1 s2 : state) : state_id s1 = state_id s2 → s1 = s2.
Proof.
  destruct s1 as [p1 d1], s2 as [p2 d2]. unfold state_id. simpl.
  intros [= -> Hs]. by rewrite (sorted_inj _ _ Hs).
Qed.

(** The key really is the sorted tuple of the dirty cells. *)
Lemma sorted_Sorted (dirty : dirtyset) : Sorted pos_le (sorted dirty).
Proof. apply Sorted_merge_sort, _. Qed.

Lemma size_zero_goal (s : state) : size s.2 = 0 ↔ is_goal s.
Proof. unfold is_goal. rewrite size_empty_iff. by unfold_leibniz. Qed.

(** ** The successor generator *)

Lemma move_V (GRID : grid) (robot_pos : position) (dirty : dirtyset) :
  move GRID robot_pos dirty Act.V =
    if decide (robot_pos ∈ dirty)
    then Ok (Some (robot_pos, dirty ∖ {[robot_pos]})) else Ok None.
Proof. destruct robot_pos as [r c]. unfold move. by rewrite decide_True. Qed.

Lemma MOVES_direction (action : Action) :
  action ≠ Act.V → ∃ d, MOVES action = Some d ∧ unit_delta d.
Proof. destruct action; intros H; try done; eexists; (split; [done|]); by compute. Qed.

Lemma move_direction (GRID : grid) (r c dr dc : Z) (dirty : dirtyset) (action : Action) :
  MOVES action = Some (dr, dc) →
  move GRID (r, c) dirty action =
    if decide (0 ≤ r + dr < Z.of_nat (length GRID))%Z then
      row0 ← getitem GRID 0;
      if decide (0 ≤ c + dc < Z.of_nat (length row0))%Z then
        row ← getitem GRID (r + dr)%Z;
        cell ← getitem row (c + dc)%Z;
        if decide (cell ≠ "#") then Ok (Some ((r + dr, c + dc)%Z, dirty)) else Ok None
      else Ok None
    else Ok None.
Proof.
  intros HM. unfold move. rewrite decide_False by (by intros ->). by rewrite HM.
Qed.

Lemma rectangular_row (GRID : grid) (i j : nat) (row row' : list string) :
  rectangular GRID → GRID !! i = Some row → GRID !! j = Some row' →
  length row = length row'.
Proof.
  intros [columns Hall] Hi Hj. rewrite Forall_lookup in Hall.
  by rewrite (Hall _ _ Hi), (Hall _ _ Hj).
Qed.

(** On a rectangular grid the bounds test of [move] is exactly "the target
    cell exists", and the cell read is that cell. *)
Lemma move_direction_rect (GRID : grid) (r c dr dc : Z) (dirty : dirtyset) (action : Action) :
  rectangular GRID → MOVES action = Some (dr, dc) →
  move GRID (r, c) dirty action =
    match cell_at GRID (r + dr, c + dc)%Z with
    | Some cell => if decide (cell ≠ "#") then Ok (Some ((r + dr, c + dc)%Z, dirty)) else Ok None
    | None => Ok None
    end.
Proof.
  intros Hrect HM. rewrite (move_direction _ _ _ _ _ _ _ HM).
  unfold cell_at. simpl.
  destruct (decide (0 ≤ r + dr < Z.of_nat (length GRID))%Z) as [Hr|Hr].
  - destruct (lookup_lt_is_Some_2 GRID (Z.to_nat (r + dr))) as [row Hrow]; [lia|].
    destruct (lookup_lt_is_Some_2 GRID 0) as [row0 Hrow0]; [lia|].
    rewrite !getitem_nonneg by lia. change (Z.to_nat 0) with 0.
    rewrite Hrow0, Hrow. simpl.
    pose proof (rectangular_row _ _ _ _ _ Hrect Hrow0 Hrow) as Hlen.
    destruct (decide (0 ≤ c + dc < Z.of_nat (length row0))%Z) as [Hc|Hc].
    + destruct (lookup_lt_is_Some_2 row (Z.to_nat (c + dc))) as [cell Hcell]; [lia|].
      rewrite getitem_nonneg by lia. rewrite Hcell. simpl.
      destruct (decide (0 ≤ r + dr ∧ 0 ≤ c + dc)%Z); [|lia].
      done.
    + destruct (decide (0 ≤ r + dr ∧ 0 ≤ c + dc)%Z) as [[_ Hc0]|]; [|done].
      simpl. rewrite (lookup_ge_None_2 row); [done|lia].
  - destruct (decide (0 ≤ r + dr ∧ 0 ≤ c + dc)%Z) as [[Hr0 _]|]; [|done].
    rewrite (lookup_ge_None_2 GRID); [done|lia].
Qed.

(** On a rectangular grid [move] never raises. *)
Lemma move_rect_Ok (GRID : grid) (robot_pos : position) (dirty : dirtyset) (action : Action) :
  rectangular GRID → ∃ o, move GRID robot_pos dirty action = Ok o.
Proof.
  intros Hrect. destruct robot_pos as [r c].
  destruct (decide (action = Act.V)) as [->|Hne].
  - rewrite move_V. case_decide; eauto.
  - destruct (MOVES_direction _ Hne) as ([dr dc] & HM & _).
    rewrite (move_direction_rect _ _ _ _ _ _ _ Hrect HM).
    destruct (cell_at _ _); [case_decide|]; eauto.
Qed.

(** An accepted action never adds dirt. *)
Lemma move_dirty_subseteq (GRID : grid) (robot_pos : position) (dirty : dirtyset)
    (action : Action) (s' : state) :
  move GRID robot_pos dirty action = Ok (Some s') → s'.2 ⊆ dirty.
Proof.
  destruct robot_pos as [r c].
  destruct (decide (action = Act.V)) as [->|Hne].
  - rewrite move_V. case_decide; [|done]. intros [= <-]. simpl. set_solver.
  - destruct (MOVES_direction _ Hne) as ([dr dc] & HM & _).
    rewrite (move_direction _ _ _ _ _ _ _ HM).
    destruct (decide _); [|done].
    destruct (getitem GRID 0) as [row0|]; simpl; [|done].
    destruct (decide _); [|done].
    destruct (getitem GRID _) as [row|]; simpl; [|done].
    destruct (getitem row _) as [cell|]; simpl; [|done].
    destruct (decide _); [|done]. by intros [= <-].
Qed.

(** ** Replaying paths *)

Lemma replay_app (GRID : grid) (s : state) (p1 p2 : list Action) :
  replay GRID s (p1 ++ p2) = replay GRID s p1 ≫= λ s', replay GRID s' p2.
Proof.
  revert s. induction p1 as [|a p1 IH]; intros s; simpl; [done|].
  destruct (move GRID s.1 s.2 a) as [[s'|]|]; simpl; auto.
Qed.

Lemma replay_snoc (GRID : grid) (s s' s'' : state) (path : list Action) (action : Action) :
  replay GRID s path = Some s' →
  move GRID s'.1 s'.2 action = Ok (Some s'') →
  replay GRID s (path ++ [action]) = Some s''.
Proof.
  intros Hp Hm. rewrite replay_app, Hp. simpl. by rewrite Hm.
Qed.

Lemma replay_snoc_inv (GRID : grid) (s s'' : state) (path : list Action) (action : Action) :
  replay GRID s (path ++ [action]) = Some s'' →
  ∃ s', replay GRID s path = Some s' ∧ move GRID s'.1 s'.2 action = Ok (Some s'').
Proof.
  rewrite replay_app. destruct (replay GRID s path) as [s'|]; simpl; [|done].
  destruct (move GRID s'.1 s'.2 action) as [[t|]|] eqn:Hm; try done.
  intros [= ->]. eauto.
Qed.

(** ** The successors of a state *)

Lemma elem_of_successors (GRID : grid) (s : state) (actions : list Action)
    (action : Action) (s' : state) :
  (action, s') ∈ successors GRID s actions ↔
  action ∈ actions ∧ move GRID s.1 s.2 action = Ok (Some s').
Proof.
  induction actions as [|a rest IH]; simpl.
  - rewrite !elem_of_nil. tauto.
  - rewrite (elem_of_cons rest).
    destruct (move GRID s.1 s.2 a) as [[t|]|] eqn:Hm;
      rewrite ?(elem_of_cons (successors _ _ _)), IH.
    + split.
      * intros [[= -> ->]|[? ?]]; auto.
      * intros [[->|?] Hm']; [left|right]; congruence || auto.
    + split; [intros [? ?]; auto|]. intros [[->|?] Hm']; [congruence|auto].
    + split; [intros [? ?]; auto|]. intros [[->|?] Hm']; [congruence|auto].
Qed.

Lemma length_successors (GRID : grid) (s : state) (actions : list Action) :
  length (successors GRID s actions) ≤ length actions.
Proof.
  induction actions as [|a rest IH]; simpl; [done|].
  destruct (move GRID s.1 s.2 a) as [[t|]|]; simpl; lia.
Qed.

Lemma elem_of_ACTIONS (action : Action) : action ∈ ACTIONS.
Proof. destruct action; unfold ACTIONS; set_solver. Qed.

Lemma elem_of_children (GRID : grid) (s : state) (path : list Action) (n : node) :
  n ∈ children GRID s path ↔
  ∃ action s', n = (s', path ++ [action]) ∧ move GRID s.1 s.2 action = Ok (Some s').
Proof.
  unfold children. rewrite list_elem_of_fmap. split.
  - intros ([a s'] & -> & Hin). apply elem_of_successors in Hin as [_ Hm]. eauto.
  - intros (a & s' & -> & Hm). exists (a, s'). split; [done|].
    apply elem_of_successors. split; [apply elem_of_ACTIONS|done].
Qed.

Lemma length_children (GRID : grid) (s : state) (path : list Action) :
  length (children GRID s path) ≤ 5.
Proof.
  unfold children. rewrite length_fmap.
  apply (length_successors GRID s ACTIONS).
Qed.

(** ** Both loops are instances of [search_step] *)

Lemma dfs_for_Ok (GRID : grid) (robot_pos : position) (dirty : dirtyset)
    (path actions : list Action) (stk stk' : list node) (gen gen' : nat) :
  dfs_for GRID robot_pos dirty path actions stk gen = Ok (stk', gen') →
  stk' = stk ++ ((λ '(action, s'), (s', path ++ [action])) <$>
                   successors GRID (robot_pos, dirty) actions) ∧
  gen' = gen + length (successors GRID (robot_pos, dirty) actions).
Proof.
  revert stk gen. induction actions as [|a rest IH]; intros stk gen; simpl.
  - intros [= <- <-]. by rewrite app_nil_r, Nat.add_0_r.
  - destruct (move GRID robot_pos dirty a) as [[t|]|]; simpl; [| |done].
    + intros Hfor. apply IH in Hfor as [-> ->].
      rewrite <- app_assoc. simpl. split; [done|lia].
    + apply IH.
Qed.

Lemma dfs_for_rect (GRID : grid) (robot_pos : position) (dirty : dirtyset)
    (path actions : list Action) (stk : list node) (gen : nat) :
  rectangular GRID →
  ∃ r, dfs_for GRID robot_pos dirty path actions stk gen = Ok r.
Proof.
  intros Hrect. revert stk gen.
  induction actions as [|a rest IH]; intros stk gen; simpl; [eauto|].
  destruct (move_rect_Ok GRID robot_pos dirty a Hrect) as [[t|] ->]; simpl; apply IH.
Qed.

Lemma dfs_body_step (GRID : grid) (v : Dfs.vars) (r : Dfs.vars + answer) :
  dfs_body GRID v = Ok r →
  search_step GRID (dfs_view v) (sum_map dfs_view id r).
Proof.
  destruct v as [stk0 vis gen exp]. unfold dfs_body, dfs_view.
  cbn [Dfs.stack Dfs.visited Dfs.nodes_generated Dfs.nodes_expanded].
  destruct (pop stk0) as [[stk [[robot_pos dirty] path]]|] eqn:Hpop.
  - apply pop_Some in Hpop as ->.
    destruct (decide (size dirty = 0)) as [Hz|Hnz].
    { intros [= <-]. simpl. apply step_goal. by apply size_zero_goal. }
    assert (¬ is_goal (robot_pos, dirty)) as Hng.
    { by rewrite <- size_zero_goal. }
    destruct (decide (state_id (robot_pos, dirty) ∈ vis)) as [Hin|Hnin].
    { intros [= <-]. simpl.
      pose proof (step_skip GRID stk [] _ path vis gen exp Hng Hin) as Hs.
      by rewrite app_nil_r in Hs. }
    destruct (dfs_for GRID robot_pos dirty path ACTIONS stk gen)
      as [[stk' gen']|] eqn:Hfor; [|done].
    intros [= <-]. simpl. apply dfs_for_Ok in Hfor as [-> ->].
    pose proof (step_expand GRID stk [] _ path vis gen exp Hng Hnin) as Hs.
    rewrite app_nil_r in Hs. unfold children in Hs.
    rewrite length_fmap in Hs. exact Hs.
  - apply pop_None in Hpop as ->. intros [= <-]. simpl. apply step_exhausted.
Qed.

Lemma dfs_body_rect (GRID : grid) (v : Dfs.vars) :
  rectangular GRID → ∃ r, dfs_body GRID v = Ok r.
Proof.
  intros Hrect. unfold dfs_body.
  destruct (pop (Dfs.stack v)) as [[stk [[robot_pos dirty] path]]|]; [|eauto].
  destruct (decide _); [eauto|]. destruct (decide _); [eauto|].
  destruct (dfs_for_rect GRID robot_pos dirty path ACTIONS stk (Dfs.nodes_generated v) Hrect)
    as [[stk' gen'] ->].
  simpl. eauto.
Qed.

Lemma ucs_for_Ok (GRID : grid) (robot_pos : position) (dirty : dirtyset) (cost : nat)
    (path actions : list Action) (fr fr' : list ucs_entry) (gen gen' : nat) :
  ucs_for GRID robot_pos dirty cost path actions fr gen = Ok (fr', gen') →
  fr' = fr ++ ((λ '(action, s'), (cost + 1, s', path ++ [action])) <$>
                 successors GRID (robot_pos, dirty) actions) ∧
  gen' = gen + length (successors GRID (robot_pos, dirty) actions).
Proof.
  revert fr gen. induction actions as [|a rest IH]; intros fr gen; simpl.
  - intros [= <- <-]. by rewrite app_nil_r, Nat.add_0_r.
  - destruct (move GRID robot_pos dirty a) as [[t|]|]; simpl; [| |done].
    + intros Hfor. apply IH in Hfor as [-> ->].
      rewrite <- app_assoc. simpl. split; [done|lia].
    + apply IH.
Qed.

Lemma ucs_for_rect (GRID : grid) (robot_pos : position) (dirty : dirtyset) (cost : nat)
    (path actions : list Action) (fr : list ucs_entry) (gen : nat) :
  rectangular GRID →
  ∃ r, ucs_for GRID robot_pos dirty cost path actions fr gen = Ok r.
Proof.
  intros Hrect. revert fr gen.
  induction actions as [|a rest IH]; intros fr gen; simpl; [eauto|].
  destruct (move_rect_Ok GRID robot_pos dirty a Hrect) as [[t|] ->]; simpl; apply IH.
Qed.

(** ** The scan of [ucs] *)

Lemma scan_invariant (fr : list ucs_entry) (k : nat) :
  k < length fr →
  foldl (scan_step fr) 0 (seq 1 k) ≤ k ∧
  ∃ e, fr !! foldl (scan_step fr) 0 (seq 1 k) = Some e ∧
    (∀ j e', j ≤ k → fr !! j = Some e' → entry_cost e ≤ entry_cost e') ∧
    (∀ j e', j < foldl (scan_step fr) 0 (seq 1 k) →
       fr !! j = Some e' → entry_cost e < entry_cost e').
Proof.
  induction k as [|k IH]; intros Hk.
  - simpl. split; [done|].
    destruct (lookup_lt_is_Some_2 fr 0) as [e He]; [lia|].
    exists e. split; [done|]. split; [|intros; lia].
    intros j e' Hj He'. assert (j = 0) as -> by lia. by simplify_eq.
  - destruct IH as (Hli & lowest & Hlow & Hmin & Hfirst); [lia|].
    rewrite seq_S, foldl_app. simpl.
    set (li := foldl (scan_step fr) 0 (seq 1 k)) in *.
    change (1 + k) with (S k).
    destruct (lookup_lt_is_Some_2 fr (S k)) as [e He]; [lia|].
    assert (scan_step fr li (S k) =
            if decide (entry_cost e < entry_cost lowest) then S k else li) as ->.
    { unfold scan_step. by rewrite He, Hlow. }
    destruct (decide (entry_cost e < entry_cost lowest)) as [Hlt|Hge].
    + split; [done|]. exists e. split; [done|]. split.
      * intros j e' Hj He'. destruct (decide (j = S k)) as [->|Hne].
        -- by simplify_eq.
        -- assert (entry_cost lowest ≤ entry_cost e'); [|lia].
           apply (Hmin j); [lia|done].
      * intros j e' Hj He'.
        assert (entry_cost lowest ≤ entry_cost e'); [|lia].
        apply (Hmin j); [lia|done].
    + split; [lia|]. exists lowest. split; [done|]. split; [|done].
      intros j e' Hj He'. destruct (decide (j = S k)) as [->|Hne].
      * simplify_eq. lia.
      * apply (Hmin j); [lia|done].
Qed.

Lemma lowest_index_first_cheapest (fr : list ucs_entry) :
  fr ≠ [] → first_cheapest fr (lowest_index fr).
Proof.
  intros Hne. unfold lowest_index.
  assert (0 < length fr) as Hlen by (destruct fr; simpl; [done|lia]).
  destruct (scan_invariant fr (length fr - 1)) as (_ & e & He & Hmin & Hfirst); [lia|].
  exists e. split; [done|]. split; [|done].
  intros j e' He'. apply (Hmin j); [|done].
  apply lookup_lt_Some in He'. lia.
Qed.

Lemma ucs_body_step (GRID : grid) (v : Ucs.vars) (r : Ucs.vars + answer) :
  ucs_body GRID v = Ok r →
  search_step GRID (ucs_view v) (sum_map ucs_view id r).
Proof.
  destruct v as [fr0 vis gen exp]. unfold ucs_body, ucs_view.
  cbn [Ucs.frontier Ucs.visited Ucs.nodes_generated Ucs.nodes_expanded].
  destruct fr0 as [|e0 fr0]; [intros [= <-]; apply step_exhausted|].
  set (fr := e0 :: fr0). set (i := lowest_index fr).
  destruct (fr !! i) as [[[cost [robot_pos dirty]] path]|] eqn:Hi; [|done].
  rewrite <- (take_drop_middle fr i _ Hi) at 1.
  rewrite delete_take_drop, !fmap_app, fmap_cons.
  change (entry_node (cost, (robot_pos, dirty), path)) with ((robot_pos, dirty), path).
  destruct (decide (size dirty = 0)) as [Hz|Hnz].
  { intros [= <-]. simpl. apply step_goal. by apply size_zero_goal. }
  assert (¬ is_goal (robot_pos, dirty)) as Hng.
  { by rewrite <- size_zero_goal. }
  destruct (decide (state_id (robot_pos, dirty) ∈ vis)) as [Hin|Hnin].
  { intros [= <-]. simpl. rewrite fmap_app. by apply step_skip. }
  destruct (ucs_for GRID robot_pos dirty cost path ACTIONS _ gen)
    as [[fr' gen']|] eqn:Hfor; [|done].
  intros [= <-]. simpl. apply ucs_for_Ok in Hfor as [-> ->].
  pose proof (step_expand GRID (entry_node <$> take i fr) (entry_node <$> drop (S i) fr)
    _ path vis gen exp Hng Hnin) as Hs.
  unfold children in Hs. rewrite length_fmap in Hs.
  rewrite !fmap_app, <- list_fmap_compose.
  erewrite (list_fmap_ext (entry_node ∘ _)); [exact Hs|].
  by intros ? [a s'] _.
Qed.

Lemma ucs_body_rect (GRID : grid) (v : Ucs.vars) :
  rectangular GRID → ∃ r, ucs_body GRID v = Ok r.
Proof.
  intros Hrect. unfold ucs_body.
  destruct (Ucs.frontier v) as [|e0 fr0] eqn:Hfr; [eauto|].
  destruct (lowest_index_first_cheapest (e0 :: fr0)) as ([[cost [robot_pos dirty]] path] & -> & _);
    [done|].
  destruct (decide _); [eauto|]. destruct (decide _); [eauto|].
  destruct (ucs_for_rect GRID robot_pos dirty cost path ACTIONS
              (delete (lowest_index (e0 :: fr0)) (e0 :: fr0)) (Ucs.nodes_generated v) Hrect)
    as [[fr' gen'] ->].
  simpl. eauto.
Qed.

(** ** The state space is finite *)

Lemma move_in_universe (GRID : grid) (init s s' : state) (action : Action) :
  in_universe GRID init s → move GRID s.1 s.2 action = Ok (Some s') →
  in_universe GRID init s'.
Proof.
  intros [Hpos Hsub] Hm. split; [|by etrans; [eapply move_dirty_subseteq|]].
  destruct s as [[r c] dirty]. cbn [fst snd] in *.
  destruct (decide (action = Act.V)) as [->|Hne].
  - rewrite move_V in Hm. case_decide; [|done]. by simplify_eq.
  - destruct (MOVES_direction _ Hne) as ([dr dc] & HM & _).
    rewrite (move_direction _ _ _ _ _ _ _ HM) in Hm.
    destruct (decide (0 ≤ r + dr < _)%Z) as [Hr|]; [|done].
    rewrite (getitem_nonneg GRID 0) in Hm by lia. change (Z.to_nat 0) with 0 in Hm.
    destruct (GRID !! 0) as [row0|] eqn:Hrow0; simpl in Hm; [|done].
    destruct (decide (0 ≤ c + dc < _)%Z) as [Hc|]; [|done].
    destruct (getitem GRID _) as [row|]; simpl in Hm; [|done].
    destruct (getitem row _) as [cell|]; simpl in Hm; [|done].
    destruct (decide (cell ≠ _)); [|done]. simplify_eq. right. simpl.
    unfold columns_of. rewrite head_lookup, Hrow0. simpl. lia.
Qed.

Lemma replay_in_universe (GRID : grid) (init s : state) (path : list Action) :
  replay GRID init path = Some s → in_universe GRID init s.
Proof.
  revert s. induction path as [|a path IH] using rev_ind; intros s.
  - intros [= <-]. split; [by left|done].
  - intros (s' & Hp & Hm)%replay_snoc_inv. eapply move_in_universe; eauto.
Qed.

Lemma elem_of_grid_positions (GRID : grid) (r c : Z) :
  (0 ≤ r < Z.of_nat (length GRID))%Z → (0 ≤ c < Z.of_nat (columns_of GRID))%Z →
  (r, c) ∈ grid_positions GRID.
Proof.
  intros Hr Hc. unfold grid_positions.
  apply list_elem_of_bind. exists (Z.to_nat r). split.
  - apply list_elem_of_bind. exists (Z.to_nat c). split.
    + apply list_elem_of_singleton. f_equal; lia.
    + apply elem_of_seq. lia.
  - apply elem_of_seq. lia.
Qed.

Lemma powerlist_filter {A : Type} (P : A → Prop) `{!∀ x, Decision (P x)} (l : list A) :
  filter P l ∈ powerlist l.
Proof.
  induction l as [|x l IH]; simpl; [apply list_elem_of_singleton; done|].
  rewrite filter_cons. apply elem_of_app. destruct (decide (P x)).
  - right. apply list_elem_of_fmap. eauto.
  - by left.
Qed.

Lemma in_universe_key (GRID : grid) (init s : state) :
  in_universe GRID init s → state_id s ∈ universe GRID init.
Proof.
  intros [Hpos Hsub]. unfold universe. apply elem_of_list_to_set.
  apply list_elem_of_bind. exists s.1. split.
  - apply list_elem_of_bind. exists (filter (λ p, p ∈ s.2) (elements init.2)). split.
    + apply list_elem_of_singleton. unfold state_id. simpl. do 2 f_equal.
      apply set_eq. intros p. rewrite elem_of_list_to_set, list_elem_of_filter.
      rewrite elem_of_elements. set_solver.
    + apply powerlist_filter.
  - apply elem_of_cons. destruct Hpos as [->|[Hr Hc]]; [by left|right].
    destruct s as [[r c] d]. by apply elem_of_grid_positions.
Qed.

(** ** The invariant of the searches *)

Section invariant.
Context (GRID : grid) (init : state).

Lemma search_inv_init : search_inv GRID init (Config [(init, [])] ∅ 1 0).
Proof.
  split; simpl.
  - by intros s path [= -> ->]%list_elem_of_singleton.
  - done.
  - right. exists []. by apply list_elem_of_singleton.
  - intros s a s' Hin. set_solver.
  - intros s Hin. set_solver.
Qed.

(** Taking an entry out of the frontier loses nothing, as long as the
    state of that entry is visited afterwards. *)
Lemma front_remove (l1 l2 : list node) (s t : state) (path p : list Action)
    (vis : gset state_key) :
  state_id s ∈ vis →
  (t, p) ∈ l1 ++ (s, path) :: l2 →
  state_id t ∈ vis ∨ ∃ p', (t, p') ∈ l1 ++ l2.
Proof.
  intros Hs. rewrite elem_of_app, elem_of_cons.
  intros [?|[[= -> ->]|?]]; [right; exists p|by left|right; exists p].
  - apply elem_of_app. by left.
  - apply elem_of_app. by right.
Qed.

Lemma search_inv_step (c c' : config) :
  search_inv GRID init c → search_step GRID c (inl c') → search_inv GRID init c'.
Proof.
  intros [Hpaths Hcount Hinit Hclosed Hnongoal] Hstep.
  inversion Hstep as [| |l1 l2 s path vis gen exp Hng Hin
                       |l1 l2 s path vis gen exp Hng Hnin]; subst; simpl in *.
  - (* the popped state had been visited *)
    split; simpl.
    + intros t p Ht. apply Hpaths. rewrite elem_of_app, elem_of_cons.
      apply elem_of_app in Ht. tauto.
    + rewrite length_app in *. simpl in Hcount. lia.
    + destruct Hinit as [?|[p Hp]]; [by left|].
      exact (front_remove l1 l2 s init path p vis Hin Hp).
    + intros t a t' Ht Hm. destruct (Hclosed t a t' Ht Hm) as [?|[p Hp]]; [by left|].
      exact (front_remove l1 l2 s t' path p vis Hin Hp).
    + done.
  - (* the popped state is visited now and its successors are pushed *)
    assert (replay GRID init path = Some s) as Hs.
    { apply Hpaths. rewrite elem_of_app, elem_of_cons. auto. }
    assert (∀ t p, (t, p) ∈ l1 ++ (s, path) :: l2 →
              state_id t ∈ {[state_id s]} ∪ vis ∨
              ∃ p', (t, p') ∈ (l1 ++ l2) ++ children GRID s path) as Hkeep.
    { intros t p Ht.
      destruct (front_remove l1 l2 s t path p ({[state_id s]} ∪ vis)) as [?|[p' Hp']];
        [set_solver|done|by left|].
      right. exists p'. apply elem_of_app. by left. }
    split; simpl.
    + intros t p [Ht|Ht]%elem_of_app.
      * apply Hpaths. rewrite elem_of_app, elem_of_cons.
        apply elem_of_app in Ht. tauto.
      * apply elem_of_children in Ht as (a & t' & [= -> ->] & Hm).
        by eapply replay_snoc.
    + rewrite !length_app in *. simpl in Hcount. lia.
    + destruct Hinit as [?|[p Hp]]; [left; set_solver|]. by eapply Hkeep.
    + intros t a t' [Ht|Ht]%elem_of_union Hm.
      * apply elem_of_singleton, state_id_inj in Ht as ->.
        right. exists (path ++ [a]). apply elem_of_app. right.
        apply elem_of_children. eauto.
      * destruct (Hclosed t a t' Ht Hm) as [?|[p Hp]]; [left; set_solver|].
        by eapply Hkeep.
    + intros t [Ht|Ht]%elem_of_union; [|by apply Hnongoal].
      by apply elem_of_singleton, state_id_inj in Ht as ->.
Qed.

(** With an empty frontier the visited set holds every reachable state. *)
Lemma search_inv_exhausted (c : config) (s : state) (path : list Action) :
  search_inv GRID init c → front c = [] →
  replay GRID init path = Some s → state_id s ∈ seen c.
Proof.
  intros [_ _ Hinit Hclosed _] Hfront. rewrite Hfront in *.
  revert s. induction path as [|a path IH] using rev_ind; intros s.
  - intros [= <-]. destruct Hinit as [?|[p Hp]]; [done|].
    by apply elem_of_nil in Hp.
  - intros (s' & Hp & Hm)%replay_snoc_inv.
    destruct (Hclosed s' a s (IH _ Hp) Hm) as [?|[p Hin]]; [done|].
    by apply elem_of_nil in Hin.
Qed.

Lemma search_inv_answer (c : config) (a : answer) :
  search_inv GRID init c → search_step GRID c (inr a) → answer_ok GRID init a.
Proof.
  intros Hinv Hstep.
  inversion Hstep as [vis gen exp|l1 l2 s path vis gen exp Hgoal| |]; subst; simpl.
  - pose proof (inv_count _ _ _ Hinv) as Hcount. simpl in Hcount.
    split; [lia|]. split; [|lia].
    intros (path & s & Hp & Hgoal).
    apply (inv_nongoal _ _ _ Hinv s); [|done].
    by eapply (search_inv_exhausted _ s path Hinv).
  - pose proof (inv_count _ _ _ Hinv) as Hcount. simpl in Hcount.
    rewrite length_app in Hcount. simpl in Hcount. split; [lia|].
    exists s. split; [|done]. apply (inv_paths _ _ _ Hinv). simpl.
    rewrite elem_of_app, elem_of_cons. auto.
Qed.

Lemma search_step_measure (c c' : config) :
  search_inv GRID init c → search_step GRID c (inl c') →
  measure GRID init c' < measure GRID init c.
Proof.
  intros Hinv Hstep. unfold measure.
  inversion Hstep as [| |l1 l2 s path vis gen exp Hng Hin
                       |l1 l2 s path vis gen exp Hng Hnin]; subst; simpl.
  - rewrite !length_app. simpl. lia.
  - assert (state_id s ∈ universe GRID init) as Hu.
    { apply in_universe_key, (replay_in_universe _ _ _ path).
      apply (inv_paths _ _ _ Hinv). simpl.
      rewrite elem_of_app, elem_of_cons. auto. }
    assert (size (universe GRID init ∖ ({[state_id s]} ∪ vis)) <
            size (universe GRID init ∖ vis)) as Hsize.
    { apply subset_size. split.
      - intros k. rewrite !elem_of_difference, elem_of_union. tauto.
      - intros Hsub. specialize (Hsub (state_id s)).
        rewrite !elem_of_difference, elem_of_union, elem_of_singleton in Hsub.
        tauto. }
    pose proof (length_children GRID s path).
    rewrite !length_app. simpl. lia.
Qed.
End invariant.

(** ** Running a loop whose body is a [search_step] *)

Section loop.
Context {Vars : Type} (GRID : grid) (init : state).
Context (body : Vars → res (Vars + answer)) (view : Vars → config).
Hypothesis body_step :
  ∀ v r, body v = Ok r → search_step GRID (view v) (sum_map view id r).

Lemma turns_inv (n : nat) (v v' : Vars) :
  search_inv GRID init (view v) → turns body n v = Some v' →
  search_inv GRID init (view v').
Proof.
  revert v. induction n as [|n IH]; intros v Hinv; simpl.
  - by intros [= <-].
  - destruct (body v) as [[v1|a]|e] eqn:Hb; try done.
    apply IH. eapply search_inv_step; [done|]. apply (body_step _ _ Hb).
Qed.

Lemma while_answer (fuel : nat) (v : Vars) (a : answer) :
  search_inv GRID init (view v) → while body fuel v = Some (Ok a) →
  answer_ok GRID init a.
Proof.
  revert v. induction fuel as [|fuel IH]; intros v Hinv; simpl; [done|].
  destruct (body v) as [[v1|a1]|e] eqn:Hb.
  - apply IH. eapply search_inv_step; [done|]. apply (body_step _ _ Hb).
  - intros [= <-]. eapply search_inv_answer; [done|]. apply (body_step _ _ Hb).
  - done.
Qed.

(** The last turn of a run that returns. *)
Lemma while_last_turn (fuel : nat) (v : Vars) (a : answer) :
  while body fuel v = Some (Ok a) →
  ∃ n v', n < fuel ∧ turns body n v = Some v' ∧ body v' = Ok (inr a).
Proof.
  revert v. induction fuel as [|fuel IH]; intros v; simpl; [done|].
  destruct (body v) as [[v1|a1]|e] eqn:Hb.
  - intros (n & v' & Hn & Ht & Hlast)%IH. exists (S n), v'.
    split; [lia|]. simpl. by rewrite Hb.
  - intros [= <-]. exists 0, v. split; [lia|]. done.
  - done.
Qed.

(** The loop stops within [measure] turns, by returning or by raising. *)
Lemma while_stops_measure (m : nat) (v : Vars) :
  search_inv GRID init (view v) → measure GRID init (view v) < m →
  ∃ r, while body m v = Some r.
Proof.
  revert v. induction m as [|m IH]; intros v Hinv Hm; [lia|]. simpl.
  destruct (body v) as [[v1|a]|e] eqn:Hb; [|eauto..].
  pose proof (body_step _ _ Hb) as Hstep. simpl in Hstep.
  apply IH.
  - by eapply search_inv_step.
  - pose proof (search_step_measure _ _ _ _ Hinv Hstep). lia.
Qed.

Hypothesis body_total : ∀ v, ∃ r, body v = Ok r.

Lemma while_terminates_measure (m : nat) (v : Vars) :
  search_inv GRID init (view v) → measure GRID init (view v) < m →
  ∃ a, while body m v = Some (Ok a).
Proof.
  revert v. induction m as [|m IH]; intros v Hinv Hm; [lia|]. simpl.
  destruct (body_total v) as [[v1|a] Hb]; rewrite Hb; [|eauto].
  pose proof (body_step _ _ Hb) as Hstep. simpl in Hstep.
  apply IH.
  - by eapply search_inv_step.
  - pose proof (search_step_measure _ _ _ _ Hinv Hstep). lia.
Qed.
End loop.

(** More fuel does not change the outcome of a loop. *)
Lemma while_mono {Vars : Type} (body : Vars → res (Vars + answer)) (fuel fuel' : nat)
    (v : Vars) (r : res answer) :
  while body fuel v = Some r → fuel ≤ fuel' → while body fuel' v = Some r.
Proof.
  revert fuel' v. induction fuel as [|fuel IH]; intros fuel' v; simpl; [done|].
  intros Hw Hle. destruct fuel' as [|fuel']; [lia|]. simpl.
  destruct (body v) as [[v1|a1]|e]; try done. apply IH; [done|lia].
Qed.

Lemma while_deterministic {Vars : Type} (body : Vars → res (Vars + answer))
    (fuel fuel' : nat) (v : Vars) (r r' : res answer) :
  while body fuel v = Some r → while body fuel' v = Some r' → r = r'.
Proof.
  intros H1 H2.
  apply (while_mono _ _ (fuel `max` fuel')) in H1; [|lia].
  apply (while_mono _ _ (fuel `max` fuel')) in H2; [|lia].
  congruence.
Qed.

Lemma turns_add {Vars : Type} (body : Vars → res (Vars + answer)) (n m : nat)
    (v : Vars) :
  turns body (n + m) v = turns body n v ≫= turns body m.
Proof.
  revert v. induction n as [|n IH]; intros v; simpl; [done|].
  destruct (body v) as [[v1|a1]|e]; simpl; auto.
Qed.

(** ** The turns of [ucs], case by case *)

Lemma ucs_body_cases (GRID : grid) (v : Ucs.vars) (r : Ucs.vars + answer) :
  ucs_body GRID v = Ok r →
  (Ucs.frontier v = [] ∧ r = inr (None, Ucs.nodes_generated v, Ucs.nodes_expanded v)) ∨
  ∃ cost s path,
    Ucs.frontier v !! lowest_index (Ucs.frontier v) = Some (cost, s, path) ∧
    ((is_goal s ∧ r = inr (Some path, Ucs.nodes_generated v, S (Ucs.nodes_expanded v))) ∨
     (¬ is_goal s ∧ state_id s ∈ Ucs.visited v ∧
      r = inl (Ucs.Vars (delete (lowest_index (Ucs.frontier v)) (Ucs.frontier v))
                 (Ucs.visited v) (Ucs.nodes_generated v) (S (Ucs.nodes_expanded v)))) ∨
     (¬ is_goal s ∧ (state_id s ∉ Ucs.visited v) ∧
      r = inl (Ucs.Vars ((delete (lowest_index (Ucs.frontier v)) (Ucs.frontier v)) ++
                          ucs_children GRID cost s path)
                 ({[state_id s]} ∪ Ucs.visited v)
                 (Ucs.nodes_generated v + length (ucs_children GRID cost s path))
                 (S (Ucs.nodes_expanded v))))).
Proof.
  unfold ucs_body. cbv zeta. destruct (Ucs.frontier v) as [|e0 fr0] eqn:Hfr.
  { intros [= <-]. by left. }
  intros Hb. right. revert Hb. set (fr := e0 :: fr0) in *. set (i := lowest_index fr).
  destruct (fr !! i) as [[[cost [robot_pos dirty]] path]|] eqn:Hi; [|done].
  intros Hb. exists cost, (robot_pos, dirty), path. split; [done|]. revert Hb.
  destruct (decide (size dirty = 0)) as [Hz|Hnz].
  { intros [= <-]. left. split; [|done]. by apply size_zero_goal. }
  assert (¬ is_goal (robot_pos, dirty)) as Hng.
  { by rewrite <- size_zero_goal. }
  intros Hb. right. revert Hb.
  destruct (decide (state_id (robot_pos, dirty) ∈ Ucs.visited v)) as [Hin|Hnin].
  { intros [= <-]. by left. }
  destruct (ucs_for GRID robot_pos dirty cost path ACTIONS _ _)
    as [[fr' gen']|] eqn:Hfor; [|done].
  intros [= <-]. right. apply ucs_for_Ok in Hfor as [-> ->].
  unfold ucs_children. by rewrite length_fmap.
Qed.

Lemma elem_of_ucs_children (GRID : grid) (cost : nat) (s : state) (path : list Action)
    (e : ucs_entry) :
  e ∈ ucs_children GRID cost s path ↔
  ∃ action s', e = (cost + 1, s', path ++ [action]) ∧
               move GRID s.1 s.2 action = Ok (Some s').
Proof.
  unfold ucs_children. rewrite list_elem_of_fmap. split.
  - intros ([a s'] & -> & Hin). apply elem_of_successors in Hin as [_ Hm]. eauto.
  - intros (a & s' & -> & Hm). exists (a, s'). split; [done|].
    apply elem_of_successors. split; [apply elem_of_ACTIONS|done].
Qed.

Lemma elem_of_delete_or {A : Type} (l : list A) (i : nat) (x y : A) :
  l !! i = Some x → y ∈ l → y = x ∨ y ∈ delete i l.
Proof.
  intros Hi. rewrite <- (take_drop_middle l i x Hi) at 1.
  rewrite delete_take_drop, !elem_of_app, elem_of_cons. tauto.
Qed.

(** ** [ucs] keeps its invariant *)

Section ucs_optimal.
Context (GRID : grid) (init : state).

Lemma ucs_inv_start : ucs_inv GRID init (λ _, 0) (ucs_init init).
Proof.
  split; simpl.
  - by intros c s path [= -> -> ->]%list_elem_of_singleton.
  - intros k e Hk. by apply elem_of_empty in Hk.
  - right. exists []. by apply list_elem_of_singleton.
  - intros s a s' Hk. by apply elem_of_empty in Hk.
  - intros s Hk. by apply elem_of_empty in Hk.
Qed.

Lemma ucs_inv_skip (g : state_key → nat) (fr : list ucs_entry) (i cost : nat)
    (s : state) (path : list Action) (vis : gset state_key) (gen exp gen' exp' : nat) :
  ucs_inv GRID init g (Ucs.Vars fr vis gen exp) →
  fr !! i = Some (cost, s, path) → state_id s ∈ vis →
  ucs_inv GRID init g (Ucs.Vars (delete i fr) vis gen' exp').
Proof.
  intros [Hcost Hmono Hinit Hedge Hnongoal] Hi Hs. simpl in *.
  assert ((cost, s, path) ∈ fr) as Hin by (by eapply list_elem_of_lookup_2).
  pose proof (Hmono _ _ Hs Hin) as Hg. unfold entry_cost in Hg. simpl in Hg.
  split; simpl.
  - intros c t p Ht. apply (Hcost c t p). by eapply list_elem_of_delete_inv.
  - intros k e Hk He. apply Hmono; [done|]. by eapply list_elem_of_delete_inv.
  - destruct Hinit as [?|[p Hp]]; [by left|].
    destruct (elem_of_delete_or fr i _ _ Hi Hp) as [[= <- <- <-]|?].
    + left. split; [done|lia].
    + right. eauto.
  - intros t a t' Ht Hm.
    destruct (Hedge t a t' Ht Hm) as [?|(c & p & Hp & Hc)]; [by left|].
    destruct (elem_of_delete_or fr i _ _ Hi Hp) as [[= <- <- <-]|?].
    + left. split; [done|lia].
    + right. eauto.
  - done.
Qed.

Lemma ucs_inv_expand (g : state_key → nat) (fr : list ucs_entry) (i cost : nat)
    (s : state) (path : list Action) (vis : gset state_key) (gen exp gen' exp' : nat) :
  ucs_inv GRID init g (Ucs.Vars fr vis gen exp) →
  fr !! i = Some (cost, s, path) →
  (∀ e, e ∈ fr → cost ≤ entry_cost e) →
  ¬ is_goal s → state_id s ∉ vis →
  ucs_inv GRID init (λ k, if decide (k = state_id s) then cost else g k)
    (Ucs.Vars (delete i fr ++ ucs_children GRID cost s path)
       ({[state_id s]} ∪ vis) gen' exp').
Proof.
  intros [Hcost Hmono Hinit Hedge Hnongoal] Hi Hmin Hng Hnin. simpl in *.
  assert ((cost, s, path) ∈ fr) as Hin by (by eapply list_elem_of_lookup_2).
  assert (∀ k, k ∈ vis → (if decide (k = state_id s) then cost else g k) = g k) as Hold.
  { intros k Hk. destruct (decide (k = state_id s)) as [->|]; done. }
  assert (∀ k, k ∈ vis → g k ≤ cost) as Hle.
  { intros k Hk. apply (Hmono k _ Hk Hin). }
  split; simpl.
  - intros c t p [Ht|Ht]%elem_of_app.
    + apply (Hcost c t p). by eapply list_elem_of_delete_inv.
    + apply elem_of_ucs_children in Ht as (a & t' & [= -> -> ->] & _).
      rewrite length_app. simpl. by rewrite (Hcost _ _ _ Hin).
  - intros k e [->%elem_of_singleton|Hk]%elem_of_union [He|He]%elem_of_app.
    + rewrite decide_True by done. apply Hmin. by eapply list_elem_of_delete_inv.
    + rewrite decide_True by done.
      apply elem_of_ucs_children in He as (a & t' & -> & _).
      unfold entry_cost. simpl. lia.
    + rewrite Hold by done. apply Hmono; [done|]. by eapply list_elem_of_delete_inv.
    + rewrite Hold by done. pose proof (Hle k Hk).
      apply elem_of_ucs_children in He as (a & t' & -> & _).
      unfold entry_cost. simpl. lia.
  - destruct Hinit as [[Hk Hg]|[p Hp]].
    + left. split; [set_solver|]. by rewrite Hold.
    + destruct (elem_of_delete_or fr i _ _ Hi Hp) as [[= <- <- <-]|?].
      * left. split; [set_solver|]. by rewrite decide_True.
      * right. exists p. apply elem_of_app. by left.
  - intros t a t' [Ht|Ht]%elem_of_union Hm.
    + apply elem_of_singleton, state_id_inj in Ht as ->.
      right. exists (cost + 1), (path ++ [a]). rewrite decide_True by done.
      split; [|done]. apply elem_of_app. right.
      apply elem_of_ucs_children. eauto.
    + rewrite (Hold (state_id t)) by done.
      destruct (Hedge t a t' Ht Hm) as [[Hk Hg]|(c & p & Hp & Hc)].
      * left. split; [set_solver|]. by rewrite Hold.
      * destruct (elem_of_delete_or fr i _ _ Hi Hp) as [[= <- <- <-]|?].
        -- left. split; [set_solver|]. by rewrite decide_True.
        -- right. exists c, p. split; [|done]. apply elem_of_app. by left.
  - intros t [Ht|Ht]%elem_of_union; [|by apply Hnongoal].
    by apply elem_of_singleton, state_id_inj in Ht as ->.
Qed.

Lemma first_cheapest_min (fr : list ucs_entry) (i : nat) (e e' : ucs_entry) :
  first_cheapest fr i → fr !! i = Some e → e' ∈ fr → entry_cost e ≤ entry_cost e'.
Proof.
  intros (e0 & He0 & Hmin & _) Hi [j Hj]%list_elem_of_lookup_1.
  simplify_eq. by eapply Hmin.
Qed.

Lemma ucs_inv_step (g : state_key → nat) (v v' : Ucs.vars) :
  ucs_inv GRID init g v → ucs_body GRID v = Ok (inl v') →
  ∃ g', ucs_inv GRID init g' v'.
Proof.
  intros Hinv Hb. destruct v as [fr vis gen exp].
  apply ucs_body_cases in Hb as [[_ [=]]|(cost & s & path & Hi & Hcase)].
  simpl in *.
  assert (fr ≠ []) as Hne by (by intros ->).
  pose proof (lowest_index_first_cheapest fr Hne) as Hfirst.
  destruct Hcase as [[_ [=]]|[(Hng & Hin & [= ->])|(Hng & Hnin & [= ->])]].
  - exists g. by eapply ucs_inv_skip.
  - eexists. eapply ucs_inv_expand; try done.
    intros e He. apply (first_cheapest_min fr _ (cost, s, path) e Hfirst Hi He).
Qed.

(** Every path from the start ends in a visited state reached no later
    than the path does, or passes an entry of the frontier that is no
    dearer than the path is long. *)
Lemma ucs_covered (g : state_key → nat) (v : Ucs.vars) (path : list Action) (t : state) :
  ucs_inv GRID init g v → replay GRID init path = Some t →
  (state_id t ∈ Ucs.visited v ∧ g (state_id t) ≤ length path) ∨
  (∃ e, e ∈ Ucs.frontier v ∧ entry_cost e ≤ length path).
Proof.
  intros [_ _ Hinit Hedge _]. revert t.
  induction path as [|a path IH] using rev_ind; intros t.
  - intros [= <-]. destruct Hinit as [[Hk Hg]|[p Hp]].
    + left. simpl. split; [done|lia].
    + right. by exists (0, init, p).
  - intros (s' & Hp & Hm)%replay_snoc_inv. rewrite length_app. simpl.
    destruct (IH _ Hp) as [[Hk Hg]|(e & He & Hc)].
    + destruct (Hedge s' a t Hk Hm) as [[Hk' Hg']|(c & p & Hin & Hc)].
      * left. split; [done|lia].
      * right. exists (c, t, p). split; [done|]. unfold entry_cost. simpl. lia.
    + right. exists e. split; [done|lia].
Qed.

Lemma ucs_return_optimal (g : state_key → nat) (v : Ucs.vars)
    (path path' : list Action) (gen exp : nat) :
  ucs_inv GRID init g v →
  ucs_body GRID v = Ok (inr (Some path, gen, exp)) →
  reaches_goal GRID init path' → length path ≤ length path'.
Proof.
  intros Hinv Hb (t & Hp & Hgoal).
  apply ucs_body_cases in Hb as [[_ [=]]|(cost & s & p & Hi & Hcase)].
  destruct Hcase as [[_ [= -> _ _]]|[(_ & _ & [=])|(_ & _ & [=])]].
  assert (Ucs.frontier v ≠ []) as Hne by (by intros Hnil; rewrite Hnil in Hi).
  pose proof (lowest_index_first_cheapest _ Hne) as Hfirst.
  assert ((cost, s, p) ∈ Ucs.frontier v) as Hin by (by eapply list_elem_of_lookup_2).
  rewrite (ucs_inv_cost _ _ _ _ Hinv _ _ _ Hin).
  destruct (ucs_covered g v path' t Hinv Hp) as [[Hk _]|(e & He & Hc)].
  - by destruct (ucs_inv_nongoal _ _ _ _ Hinv t Hk).
  - pose proof (first_cheapest_min _ _ (cost, s, p) e Hfirst Hi He) as Hle.
    unfold entry_cost in Hle at 1. simpl in Hle. lia.
Qed.

Lemma ucs_while_optimal (fuel : nat) (g : state_key → nat) (v : Ucs.vars)
    (path path' : list Action) (gen exp : nat) :
  ucs_inv GRID init g v →
  while (ucs_body GRID) fuel v = Some (Ok (Some path, gen, exp)) →
  reaches_goal GRID init path' → length path ≤ length path'.
Proof.
  revert g v. induction fuel as [|fuel IH]; intros g v Hinv; simpl; [done|].
  destruct (ucs_body GRID v) as [[v1|a1]|e] eqn:Hb.
  - destruct (ucs_inv_step g v v1 Hinv Hb) as [g' Hinv']. by apply (IH g').
  - intros [= ->]. by eapply ucs_return_optimal.
  - done.
Qed.
End ucs_optimal.

(** ** The turns of [dfs], case by case *)

Lemma dfs_body_cases (GRID : grid) (v : Dfs.vars) (r : Dfs.vars + answer) :
  dfs_body GRID v = Ok r →
  (Dfs.stack v = [] ∧ r = inr (None, Dfs.nodes_generated v, Dfs.nodes_expanded v)) ∨
  ∃ stk s path,
    pop (Dfs.stack v) = Some (stk, (s, path)) ∧
    ((is_goal s ∧ r = inr (Some path, Dfs.nodes_generated v, S (Dfs.nodes_expanded v))) ∨
     (¬ is_goal s ∧ state_id s ∈ Dfs.visited v ∧
      r = inl (Dfs.Vars stk (Dfs.visited v) (Dfs.nodes_generated v) (S (Dfs.nodes_expanded v)))) ∨
     (¬ is_goal s ∧ (state_id s ∉ Dfs.visited v) ∧
      r = inl (Dfs.Vars (stk ++ children GRID s path) ({[state_id s]} ∪ Dfs.visited v)
                 (Dfs.nodes_generated v + length (children GRID s path))
                 (S (Dfs.nodes_expanded v))))).
Proof.
  unfold dfs_body. cbv zeta.
  destruct (pop (Dfs.stack v)) as [[stk [[robot_pos dirty] path]]|] eqn:Hpop.
  2:{ intros [= <-]. left. by apply pop_None in Hpop. }
  intros Hb. right. exists stk, (robot_pos, dirty), path. split; [done|]. revert Hb.
  destruct (decide (size dirty = 0)) as [Hz|Hnz].
  { intros [= <-]. left. split; [|done]. by apply size_zero_goal. }
  assert (¬ is_goal (robot_pos, dirty)) as Hng.
  { by rewrite <- size_zero_goal. }
  intros Hb. right. revert Hb.
  destruct (decide (state_id (robot_pos, dirty) ∈ Dfs.visited v)) as [Hin|Hnin].
  { intros [= <-]. by left. }
  destruct (dfs_for GRID robot_pos dirty path ACTIONS _ _)
    as [[stk' gen']|] eqn:Hfor; [|done].
  intros [= <-]. right. apply dfs_for_Ok in Hfor as [-> ->].
  unfold children. by rewrite length_fmap.
Qed.

(** ** The visited set only grows *)

Lemma search_step_seen (GRID : grid) (c c' : config) :
  search_step GRID c (inl c') → seen c ⊆ seen c'.
Proof.
  intros Hstep. inversion Hstep; subst; simpl; [done|].
  apply union_subseteq_r.
Qed.

Lemma dfs_turns_visited (GRID : grid) (n : nat) (v v' : Dfs.vars) :
  turns (dfs_body GRID) n v = Some v' → Dfs.visited v ⊆ Dfs.visited v'.
Proof.
  revert v. induction n as [|n IH]; intros v; simpl; [by intros [= <-]|].
  destruct (dfs_body GRID v) as [[v1|a]|e] eqn:Hb; try done.
  intros Ht. etrans; [|by apply IH].
  apply (search_step_seen GRID (dfs_view v) (dfs_view v1)), (dfs_body_step _ _ _ Hb).
Qed.

Lemma ucs_turns_visited (GRID : grid) (n : nat) (v v' : Ucs.vars) :
  turns (ucs_body GRID) n v = Some v' → Ucs.visited v ⊆ Ucs.visited v'.
Proof.
  revert v. induction n as [|n IH]; intros v; simpl; [by intros [= <-]|].
  destruct (ucs_body GRID v) as [[v1|a]|e] eqn:Hb; try done.
  intros Ht. etrans; [|by apply IH].
  apply (search_step_seen GRID (ucs_view v) (ucs_view v1)), (ucs_body_step _ _ _ Hb).
Qed.

Lemma dfs_expands_once (GRID : grid) (i j : nat) (v vi vj : Dfs.vars) (s : state) :
  i < j →
  turns (dfs_body GRID) i v = Some vi → turns (dfs_body GRID) j v = Some vj →
  dfs_expands vi s → ¬ dfs_expands vj s.
Proof.
  intros Hij Hi Hj (stk & path & Hpop & Hng & Hnin) (_ & _ & _ & _ & Hnin').
  replace j with (i + S (j - i - 1)) in Hj by lia.
  rewrite turns_add, Hi in Hj. simpl in Hj.
  destruct (dfs_body GRID vi) as [[v1|a]|e] eqn:Hb; try done.
  apply dfs_turns_visited in Hj. apply Hnin', Hj.
  apply dfs_body_cases in Hb as [[Hnil _]|(stk1 & s1 & path1 & Hpop1 & Hcase)].
  { rewrite Hnil in Hpop. done. }
  rewrite Hpop in Hpop1. simplify_eq.
  destruct Hcase as [[_ [=]]|[(_ & ? & _)|(_ & _ & [= ->])]]; [done|].
  simpl. apply elem_of_union_l. by apply elem_of_singleton.
Qed.

Lemma ucs_expands_once (GRID : grid) (i j : nat) (v vi vj : Ucs.vars) (s : state) :
  i < j →
  turns (ucs_body GRID) i v = Some vi → turns (ucs_body GRID) j v = Some vj →
  ucs_expands vi s → ¬ ucs_expands vj s.
Proof.
  intros Hij Hi Hj (cost & path & Hlow & Hng & Hnin) (_ & _ & _ & _ & Hnin').
  replace j with (i + S (j - i - 1)) in Hj by lia.
  rewrite turns_add, Hi in Hj. simpl in Hj.
  destruct (ucs_body GRID vi) as [[v1|a]|e] eqn:Hb; try done.
  apply ucs_turns_visited in Hj. apply Hnin', Hj.
  apply ucs_body_cases in Hb as [[Hnil _]|(cost1 & s1 & path1 & Hlow1 & Hcase)].
  { rewrite Hnil in Hlow. done. }
  rewrite Hlow in Hlow1. simplify_eq.
  destruct Hcase as [[_ [=]]|[(_ & ? & _)|(_ & _ & [= ->])]]; [done|].
  simpl. apply elem_of_union_l. by apply elem_of_singleton.
Qed.

(** ** Both searches terminate and answer correctly *)

Lemma measure_init_bound (GRID : grid) (init : state) (fr : list node) (gen exp : nat) :
  length fr = 1 →
  measure GRID init (Config fr ∅ gen exp) < turn_bound GRID init.
Proof.
  intros Hlen. unfold measure, turn_bound. simpl. rewrite Hlen.
  rewrite difference_empty_L. lia.
Qed.

Lemma dfs_stops (GRID : grid) (init : state) :
  ∃ r, dfs GRID (turn_bound GRID init) init = Some r.
Proof.
  apply (while_stops_measure GRID init (dfs_body GRID) dfs_view (dfs_body_step GRID)).
  - apply search_inv_init.
  - by apply measure_init_bound.
Qed.

Lemma ucs_stops (GRID : grid) (init : state) :
  ∃ r, ucs GRID (turn_bound GRID init) init = Some r.
Proof.
  apply (while_stops_measure GRID init (ucs_body GRID) ucs_view (ucs_body_step GRID)).
  - apply search_inv_init.
  - by apply measure_init_bound.
Qed.

Lemma dfs_terminates (GRID : grid) (init : state) :
  rectangular GRID →
  ∃ a, dfs GRID (turn_bound GRID init) init = Some (Ok a) ∧ answer_ok GRID init a.
Proof.
  intros Hrect.
  destruct (while_terminates_measure GRID init (dfs_body GRID) dfs_view
              (dfs_body_step GRID) (λ v, dfs_body_rect GRID v Hrect)
              (turn_bound GRID init) (dfs_init init)) as [a Ha].
  - apply search_inv_init.
  - by apply measure_init_bound.
  - exists a. split; [done|].
    apply (while_answer GRID init (dfs_body GRID) dfs_view (dfs_body_step GRID) _
             (dfs_init init) a (search_inv_init GRID init) Ha).
Qed.

Lemma ucs_terminates (GRID : grid) (init : state) :
  rectangular GRID →
  ∃ a, ucs GRID (turn_bound GRID init) init = Some (Ok a) ∧ answer_ok GRID init a.
Proof.
  intros Hrect.
  destruct (while_terminates_measure GRID init (ucs_body GRID) ucs_view
              (ucs_body_step GRID) (λ v, ucs_body_rect GRID v Hrect)
              (turn_bound GRID init) (ucs_init init)) as [a Ha].
  - apply search_inv_init.
  - by apply measure_init_bound.
  - exists a. split; [done|].
    apply (while_answer GRID init (ucs_body GRID) ucs_view (ucs_body_step GRID) _
             (ucs_init init) a (search_inv_init GRID init) Ha).
Qed.

(** * The properties of the specification *)

(** ** The successor generator (C5, C6) *)

(** C5.  The cleaning action [V] is accepted exactly when the robot stands
    on a dirty cell.  When it is accepted the robot stays where it is and
    the new dirty set is the old one without that one position; otherwise
    [move] returns the rejection. *)
Theorem move_clean_spec (GRID : grid) (robot_pos : position) (dirty : dirtyset) :
  ((∃ s', move GRID robot_pos dirty Act.V = Ok (Some s')) ↔ robot_pos ∈ dirty) ∧
  ((robot_pos ∈ dirty ∧
    ∃ new_dirty, move GRID robot_pos dirty Act.V = Ok (Some (robot_pos, new_dirty)) ∧
      ∀ p, p ∈ new_dirty ↔ p ∈ dirty ∧ p ≠ robot_pos) ∨
   ((robot_pos ∉ dirty) ∧ move GRID robot_pos dirty Act.V = Ok None)).
Proof.
  rewrite move_V. destruct (decide (robot_pos ∈ dirty)) as [Hin|Hnin].
  - split; [split; eauto|]. left. split; [done|].
    exists (dirty ∖ {[robot_pos]}). split; [done|].
    intros p. rewrite elem_of_difference, elem_of_singleton. tauto.
  - split; [|by right]. split; [|done]. by intros [s' [=]].
Qed.

(** C6.  On a grid of [rows × columns] cells, a directional action adds its
    unit delta to the robot position; it is accepted exactly when the
    target is a cell of the grid and that cell is not a wall, and then the
    result is the target position with the dirty set as it was; otherwise
    [move] returns the rejection. *)
Theorem move_direction_spec (GRID : grid) (r c : Z) (dirty : dirtyset) (action : Action) :
  rectangular GRID → action ≠ Act.V →
  ∃ dr dc, MOVES action = Some (dr, dc) ∧ unit_delta (dr, dc) ∧
    ((within_bounds GRID (r + dr, c + dc)%Z ∧ ¬ is_wall GRID (r + dr, c + dc)%Z ∧
      move GRID (r, c) dirty action = Ok (Some ((r + dr, c + dc)%Z, dirty))) ∨
     (¬ (within_bounds GRID (r + dr, c + dc)%Z ∧ ¬ is_wall GRID (r + dr, c + dc)%Z) ∧
      move GRID (r, c) dirty action = Ok None)).
Proof.
  intros Hrect Hne. destruct (MOVES_direction _ Hne) as ([dr dc] & HM & Hunit).
  exists dr, dc. split; [done|]. split; [done|].
  rewrite (move_direction_rect _ _ _ _ _ _ _ Hrect HM).
  unfold within_bounds, is_wall.
  destruct (cell_at GRID (r + dr, c + dc)%Z) as [cell|].
  - destruct (decide (cell ≠ "#")) as [Hcell|Hcell].
    + left. split; [by eexists|]. split; [|done]. by intros [= ->].
    + right. split; [|done]. intros [_ Hw]. apply Hw. f_equal.
      by destruct (decide (cell = "#")).
  - right. split; [|done]. by intros [[? [=]] _].
Qed.

Lemma move_direction_spec_witness :
  rectangular corridor ∧ Act.E ≠ Act.V ∧
  ∃ dr dc, MOVES Act.E = Some (dr, dc) ∧ unit_delta (dr, dc) ∧
    ((within_bounds corridor (0 + dr, 0 + dc)%Z ∧ ¬ is_wall corridor (0 + dr, 0 + dc)%Z ∧
      move corridor (0, 0)%Z ∅ Act.E = Ok (Some ((0 + dr, 0 + dc)%Z, ∅))) ∨
     (¬ (within_bounds corridor (0 + dr, 0 + dc)%Z ∧ ¬ is_wall corridor (0 + dr, 0 + dc)%Z) ∧
      move corridor (0, 0)%Z ∅ Act.E = Ok None)).
Proof.
  assert (rectangular corridor) as Hrect.
  { exists 2. repeat constructor. }
  assert (Act.E ≠ Act.V) as Hne by discriminate.
  split; [exact Hrect|]. split; [exact Hne|].
  exact (move_direction_spec corridor 0 0 ∅ Act.E Hrect Hne).
Defined.

(** Without the rectangular shape the bounds test of [move], which only
    looks at the first row, lets a subscript run off a shorter row. *)
Example move_ragged_raises : move ragged (0, 1)%Z ∅ Act.S = Raise IndexError.
Proof. reflexivity. Qed.

(** There a goal is two actions away, and still both searches raise. *)
Example ragged_searches_raise :
  reaches_goal ragged ((0, 0)%Z, {[ (1, 0)%Z ]}) [Act.S; Act.V] ∧
  dfs ragged 2 ((0, 0)%Z, {[ (1, 0)%Z ]}) = Some (Raise IndexError) ∧
  ucs ragged 2 ((0, 0)%Z, {[ (1, 0)%Z ]}) = Some (Raise IndexError).
Proof.
  split; [|split; vm_compute; reflexivity].
  eexists. split; [vm_compute; reflexivity|].
  apply size_zero_goal. vm_compute. reflexivity.
Qed.

(** ** Trivial and tiny worlds (C3, C4) *)

(** C3.  When nothing is dirty at the start, each search returns in its
    first turn, with the empty path and both counters equal to 1. *)
Theorem clean_start_returns_at_once (GRID : grid) (initial_state : state) (fuel : nat) :
  is_goal initial_state →
  dfs GRID (S fuel) initial_state = Some (Ok (Some [], 1, 1)) ∧
  ucs GRID (S fuel) initial_state = Some (Ok (Some [], 1, 1)).
Proof.
  intros Hgoal%size_zero_goal. destruct initial_state as [robot_pos dirty].
  simpl in Hgoal. unfold dfs, ucs, dfs_body, ucs_body. simpl.
  by rewrite !decide_True.
Qed.

Lemma clean_start_returns_at_once_witness :
  is_goal ((0, 0)%Z, ∅) ∧
  dfs corridor 1 ((0, 0)%Z, ∅) = Some (Ok (Some [], 1, 1)) ∧
  ucs corridor 1 ((0, 0)%Z, ∅) = Some (Ok (Some [], 1, 1)).
Proof.
  assert (is_goal ((0, 0)%Z, ∅)) as Hgoal by reflexivity.
  split; [exact Hgoal|].
  exact (clean_start_returns_at_once corridor ((0, 0)%Z, ∅) 0 Hgoal).
Defined.

(** C4, as the code has it.  In the world of one cell, with the robot on
    that cell and the cell dirty, each search returns the path [[V]]; the
    clean successor is generated and then expanded, so both counters
    are 2. *)
Theorem one_cell_world (cell : string) (fuel : nat) :
  dfs (one_cell cell) (S (S fuel)) ((0, 0)%Z, {[ (0, 0)%Z ]}) =
    Some (Ok (Some [Act.V], 2, 2)) ∧
  ucs (one_cell cell) (S (S fuel)) ((0, 0)%Z, {[ (0, 0)%Z ]}) =
    Some (Ok (Some [Act.V], 2, 2)).
Proof. split; vm_compute; reflexivity. Qed.

(** C4, as the specification words it, fails.  In the world of one open
    cell both searches return [[V]] with both counters equal to 2, and
    with no amount of fuel does either return it with both counters equal
    to 1. *)
Lemma one_cell_world_counters_not_1 :
  dfs (one_cell "_") 2 ((0, 0)%Z, {[ (0, 0)%Z ]}) = Some (Ok (Some [Act.V], 2, 2)) ∧
  ucs (one_cell "_") 2 ((0, 0)%Z, {[ (0, 0)%Z ]}) = Some (Ok (Some [Act.V], 2, 2)) ∧
  ¬ (∃ fuel, dfs (one_cell "_") fuel ((0, 0)%Z, {[ (0, 0)%Z ]}) =
               Some (Ok (Some [Act.V], 1, 1))) ∧
  ¬ (∃ fuel, ucs (one_cell "_") fuel ((0, 0)%Z, {[ (0, 0)%Z ]}) =
               Some (Ok (Some [Act.V], 1, 1))).
Proof.
  split; [reflexivity|]. split; [reflexivity|]. split.
  - intros [fuel H].
    pose proof (while_deterministic _ _ 2 _ _ _ H eq_refl) as Heq. discriminate Heq.
  - intros [fuel H].
    pose proof (while_deterministic _ _ 2 _ _ _ H eq_refl) as Heq. discriminate Heq.
Qed.

(** ** The scan of the frontier (C7) *)

(** C7.  In a turn of [ucs] with a non-empty frontier, the entry taken is
    at the first index that holds a least cost: no entry of the frontier
    is cheaper and every entry before it is strictly dearer.  The turn
    either returns the path of that entry, or goes on with the frontier
    less that one entry, in the same order, and with the new entries after
    it; so the order of the list is the order of insertion, and the first
    cheapest entry is the earliest inserted one. *)
Theorem ucs_takes_first_cheapest (GRID : grid) (v : Ucs.vars) :
  Ucs.frontier v ≠ [] →
  ∃ e, Ucs.frontier v !! lowest_index (Ucs.frontier v) = Some e ∧
    (∀ e', e' ∈ Ucs.frontier v → entry_cost e ≤ entry_cost e') ∧
    (∀ j e', j < lowest_index (Ucs.frontier v) → Ucs.frontier v !! j = Some e' →
       entry_cost e < entry_cost e') ∧
    (∀ r, ucs_body GRID v = Ok r →
       match r with
       | inl v' => ∃ new,
           Ucs.frontier v' = delete (lowest_index (Ucs.frontier v)) (Ucs.frontier v) ++ new
       | inr (found, _, _) => found = Some e.2
       end).
Proof.
  intros Hne. pose proof (lowest_index_first_cheapest _ Hne) as Hfirst.
  destruct Hfirst as (e & He & Hmin & Hbefore). exists e.
  split; [done|]. split; [|split; [done|]].
  - intros e' [j Hj]%list_elem_of_lookup_1. by eapply Hmin.
  - intros r [[Hnil _]|(cost & s & path & Hi & Hcase)]%ucs_body_cases; [done|].
    rewrite He in Hi. simplify_eq.
    destruct Hcase as [[_ ->]|[(_ & _ & ->)|(_ & _ & ->)]]; simpl.
    + done.
    + exists []. by rewrite app_nil_r.
    + by eexists.
Qed.

Lemma ucs_takes_first_cheapest_witness :
  Ucs.frontier tie_vars ≠ [] ∧
  ∃ e, Ucs.frontier tie_vars !! lowest_index (Ucs.frontier tie_vars) = Some e ∧
    (∀ e', e' ∈ Ucs.frontier tie_vars → entry_cost e ≤ entry_cost e') ∧
    (∀ j e', j < lowest_index (Ucs.frontier tie_vars) → Ucs.frontier tie_vars !! j = Some e' →
       entry_cost e < entry_cost e') ∧
    (∀ r, ucs_body corridor tie_vars = Ok r →
       match r with
       | inl v' => ∃ new,
           Ucs.frontier v' =
             delete (lowest_index (Ucs.frontier tie_vars)) (Ucs.frontier tie_vars) ++ new
       | inr (found, _, _) => found = Some e.2
       end).
Proof.
  assert (Ucs.frontier tie_vars ≠ []) as Hne by discriminate.
  split; [exact Hne|]. exact (ucs_takes_first_cheapest corridor tie_vars Hne).
Defined.

(** The scan on that frontier: two entries cost 1, and the one taken is
    the earlier of them. *)
Example lowest_index_tie : lowest_index (Ucs.frontier tie_vars) = 1.
Proof. reflexivity. Qed.

(** ** Termination, failure and the counters (C8, C9, C10) *)

(** C8.  Both searches terminate.  On any grid each loop stops within
    [turn_bound] turns, a number computed from the finite state space; on
    a grid of [rows × columns] cells it stops by returning an answer (a
    path or [None], with the counters), not by raising.  And the visited
    set keeps a state from being expanded twice: two different turns of a
    run never expand the same state. *)
Theorem searches_terminate (GRID : grid) (initial_state : state) :
  (∃ r, dfs GRID (turn_bound GRID initial_state) initial_state = Some r) ∧
  (∃ r, ucs GRID (turn_bound GRID initial_state) initial_state = Some r) ∧
  (rectangular GRID →
   (∃ a, dfs GRID (turn_bound GRID initial_state) initial_state = Some (Ok a)) ∧
   (∃ a, ucs GRID (turn_bound GRID initial_state) initial_state = Some (Ok a))) ∧
  (∀ i j vi vj s, i < j →
     turns (dfs_body GRID) i (dfs_init initial_state) = Some vi →
     turns (dfs_body GRID) j (dfs_init initial_state) = Some vj →
     dfs_expands vi s → ¬ dfs_expands vj s) ∧
  (∀ i j vi vj s, i < j →
     turns (ucs_body GRID) i (ucs_init initial_state) = Some vi →
     turns (ucs_body GRID) j (ucs_init initial_state) = Some vj →
     ucs_expands vi s → ¬ ucs_expands vj s).
Proof.
  split; [apply dfs_stops|]. split; [apply ucs_stops|]. split; [|split].
  - intros Hrect. split.
    + destruct (dfs_terminates GRID initial_state Hrect) as (a & Ha & _). eauto.
    + destruct (ucs_terminates GRID initial_state Hrect) as (a & Ha & _). eauto.
  - intros i j vi vj s. apply dfs_expands_once.
  - intros i j vi vj s. apply ucs_expands_once.
Qed.

Lemma corridor_rectangular : rectangular corridor.
Proof. exists 2. repeat constructor. Defined.

Lemma walled_rectangular : rectangular walled.
Proof. exists 3. repeat constructor. Defined.

Lemma searches_terminate_witness :
  rectangular corridor ∧
  (∃ a, dfs corridor (turn_bound corridor ((0, 0)%Z, {[ (0, 1)%Z ]}))
          ((0, 0)%Z, {[ (0, 1)%Z ]}) = Some (Ok a)) ∧
  (∃ a, ucs corridor (turn_bound corridor ((0, 0)%Z, {[ (0, 1)%Z ]}))
          ((0, 0)%Z, {[ (0, 1)%Z ]}) = Some (Ok a)).
Proof.
  split; [exact corridor_rectangular|].
  exact (proj1 (proj2 (proj2
    (searches_terminate corridor ((0, 0)%Z, {[ (0, 1)%Z ]})))) corridor_rectangular).
Defined.

(** C9.  When no goal can be reached, each search runs until its frontier
    is empty and then returns [None] with the values the two counters have
    at that moment. *)
Theorem no_goal_returns_None (GRID : grid) (initial_state : state) :
  rectangular GRID → ¬ goal_reachable GRID initial_state →
  (∃ fuel n v,
     turns (dfs_body GRID) n (dfs_init initial_state) = Some v ∧ Dfs.stack v = [] ∧
     dfs GRID fuel initial_state = Some (Ok (None, Dfs.nodes_generated v, Dfs.nodes_expanded v)) ∧
     ∀ fuel' r, dfs GRID fuel' initial_state = Some r →
       r = Ok (None, Dfs.nodes_generated v, Dfs.nodes_expanded v)) ∧
  (∃ fuel n v,
     turns (ucs_body GRID) n (ucs_init initial_state) = Some v ∧ Ucs.frontier v = [] ∧
     ucs GRID fuel initial_state = Some (Ok (None, Ucs.nodes_generated v, Ucs.nodes_expanded v)) ∧
     ∀ fuel' r, ucs GRID fuel' initial_state = Some r →
       r = Ok (None, Ucs.nodes_generated v, Ucs.nodes_expanded v)).
Proof.
  intros Hrect Hno. split.
  - destruct (dfs_terminates GRID initial_state Hrect) as ([[found gen] exp] & Ha & Hok).
    destruct found as [path|].
    { destruct Hok as [_ Hreach]. destruct Hno. by exists path. }
    destruct (while_last_turn _ _ _ _ Ha) as (n & v & _ & Hn & Hlast).
    apply dfs_body_cases in Hlast as [[Hnil [= -> ->]]|(stk & s & path & _ & Hcase)].
    + exists (turn_bound GRID initial_state), n, v.
      split; [done|]. split; [done|]. split; [done|].
      intros fuel' r Hr. by apply (while_deterministic _ _ _ _ _ _ Hr Ha).
    + by destruct Hcase as [[_ [=]]|[(_ & _ & [=])|(_ & _ & [=])]].
  - destruct (ucs_terminates GRID initial_state Hrect) as ([[found gen] exp] & Ha & Hok).
    destruct found as [path|].
    { destruct Hok as [_ Hreach]. destruct Hno. by exists path. }
    destruct (while_last_turn _ _ _ _ Ha) as (n & v & _ & Hn & Hlast).
    apply ucs_body_cases in Hlast as [[Hnil [= -> ->]]|(cost & s & path & _ & Hcase)].
    + exists (turn_bound GRID initial_state), n, v.
      split; [done|]. split; [done|]. split; [done|].
      intros fuel' r Hr. by apply (while_deterministic _ _ _ _ _ _ Hr Ha).
    + by destruct Hcase as [[_ [=]]|[(_ & _ & [=])|(_ & _ & [=])]].
Qed.

(** In the walled corridor the robot cannot leave its cell, and that cell
    is not the dirty one. *)
Lemma walled_no_goal : ¬ goal_reachable walled ((0, 0)%Z, {[ (0, 2)%Z ]}).
Proof.
  intros (path & s & Hp & Hgoal). destruct path as [|action path].
  - simpl in Hp. injection Hp as <-. apply size_zero_goal in Hgoal.
    vm_compute in Hgoal. discriminate Hgoal.
  - destruct action; vm_compute in Hp; discriminate Hp.
Defined.

Lemma no_goal_returns_None_witness :
  rectangular walled ∧ ¬ goal_reachable walled ((0, 0)%Z, {[ (0, 2)%Z ]}) ∧
  (∃ fuel n v,
     turns (dfs_body walled) n (dfs_init ((0, 0)%Z, {[ (0, 2)%Z ]})) = Some v ∧
     Dfs.stack v = [] ∧
     dfs walled fuel ((0, 0)%Z, {[ (0, 2)%Z ]}) =
       Some (Ok (None, Dfs.nodes_generated v, Dfs.nodes_expanded v)) ∧
     ∀ fuel' r, dfs walled fuel' ((0, 0)%Z, {[ (0, 2)%Z ]}) = Some r →
       r = Ok (None, Dfs.nodes_generated v, Dfs.nodes_expanded v)) ∧
  (∃ fuel n v,
     turns (ucs_body walled) n (ucs_init ((0, 0)%Z, {[ (0, 2)%Z ]})) = Some v ∧
     Ucs.frontier v = [] ∧
     ucs walled fuel ((0, 0)%Z, {[ (0, 2)%Z ]}) =
       Some (Ok (None, Ucs.nodes_generated v, Ucs.nodes_expanded v)) ∧
     ∀ fuel' r, ucs walled fuel' ((0, 0)%Z, {[ (0, 2)%Z ]}) = Some r →
       r = Ok (None, Ucs.nodes_generated v, Ucs.nodes_expanded v)).
Proof.
  split; [exact walled_rectangular|]. split; [exact walled_no_goal|].
  exact (no_goal_returns_None walled _ walled_rectangular walled_no_goal).
Defined.

(** Scenario C: both searches give up after expanding the one state. *)
Example walled_searches :
  dfs walled 2 ((0, 0)%Z, {[ (0, 2)%Z ]}) = Some (Ok (None, 1, 1)) ∧
  ucs walled 2 ((0, 0)%Z, {[ (0, 2)%Z ]}) = Some (Ok (None, 1, 1)).
Proof. split; reflexivity. Qed.

(** C10.  At the head of every turn of either loop the entries generated
    so far are those already taken plus those still waiting, so
    [nodes_expanded ≤ nodes_generated] there (and still after the
    increment that follows a pop, the frontier being non-empty then); and
    the counters returned satisfy it too. *)
Theorem expanded_le_generated (GRID : grid) (initial_state : state) :
  (∀ n v, turns (dfs_body GRID) n (dfs_init initial_state) = Some v →
     Dfs.nodes_generated v = Dfs.nodes_expanded v + length (Dfs.stack v) ∧
     Dfs.nodes_expanded v ≤ Dfs.nodes_generated v) ∧
  (∀ fuel found gen exp,
     dfs GRID fuel initial_state = Some (Ok (found, gen, exp)) → exp ≤ gen) ∧
  (∀ n v, turns (ucs_body GRID) n (ucs_init initial_state) = Some v →
     Ucs.nodes_generated v = Ucs.nodes_expanded v + length (Ucs.frontier v) ∧
     Ucs.nodes_expanded v ≤ Ucs.nodes_generated v) ∧
  (∀ fuel found gen exp,
     ucs GRID fuel initial_state = Some (Ok (found, gen, exp)) → exp ≤ gen).
Proof.
  split; [|split; [|split]].
  - intros n v Hn.
    pose proof (turns_inv GRID initial_state (dfs_body GRID) dfs_view
                  (dfs_body_step GRID) n (dfs_init initial_state) v
                  (search_inv_init GRID initial_state) Hn) as Hinv.
    pose proof (inv_count _ _ _ Hinv) as Hcount. simpl in Hcount. lia.
  - intros fuel found gen exp Ha.
    pose proof (while_answer GRID initial_state (dfs_body GRID) dfs_view
                  (dfs_body_step GRID) fuel (dfs_init initial_state) _
                  (search_inv_init GRID initial_state) Ha) as Hok.
    by destruct Hok as [Hle _].
  - intros n v Hn.
    pose proof (turns_inv GRID initial_state (ucs_body GRID) ucs_view
                  (ucs_body_step GRID) n (ucs_init initial_state) v
                  (search_inv_init GRID initial_state) Hn) as Hinv.
    pose proof (inv_count _ _ _ Hinv) as Hcount. simpl in Hcount.
    rewrite length_fmap in Hcount. lia.
  - intros fuel found gen exp Ha.
    pose proof (while_answer GRID initial_state (ucs_body GRID) ucs_view
                  (ucs_body_step GRID) fuel (ucs_init initial_state) _
                  (search_inv_init GRID initial_state) Ha) as Hok.
    by destruct Hok as [Hle _].
Qed.

Lemma expanded_le_generated_witness :
  (∃ v, turns (dfs_body corridor) 2 (dfs_init ((0, 0)%Z, {[ (0, 1)%Z ]})) = Some v ∧
        Dfs.nodes_generated v = Dfs.nodes_expanded v + length (Dfs.stack v) ∧
        Dfs.nodes_expanded v ≤ Dfs.nodes_generated v) ∧
  (∃ v, turns (ucs_body corridor) 2 (ucs_init ((0, 0)%Z, {[ (0, 1)%Z ]})) = Some v ∧
        Ucs.nodes_generated v = Ucs.nodes_expanded v + length (Ucs.frontier v) ∧
        Ucs.nodes_expanded v ≤ Ucs.nodes_generated v).
Proof.
  pose proof (expanded_le_generated corridor ((0, 0)%Z, {[ (0, 1)%Z ]}))
    as (Hd & _ & Hu & _).
  split.
  - eexists. split; [vm_compute; reflexivity|]. apply (Hd 2). vm_compute. reflexivity.
  - eexists. split; [vm_compute; reflexivity|]. apply (Hu 2). vm_compute. reflexivity.
Defined.

(** ** The paths returned (C1, C2) *)

(** C2.  When a goal can be reached, [dfs] returns a path, and replaying
    that path from the initial state through [move] never meets a
    rejection and ends with nothing dirty. *)
Theorem dfs_returns_valid_path (GRID : grid) (initial_state : state) :
  rectangular GRID → goal_reachable GRID initial_state →
  ∃ fuel path gen exp,
    dfs GRID fuel initial_state = Some (Ok (Some path, gen, exp)) ∧
    (∀ fuel' r, dfs GRID fuel' initial_state = Some r → r = Ok (Some path, gen, exp)) ∧
    ∃ s', replay GRID initial_state path = Some s' ∧ s'.2 = ∅.
Proof.
  intros Hrect Hreach.
  destruct (dfs_terminates GRID initial_state Hrect) as ([[found gen] exp] & Ha & Hok).
  destruct found as [path|].
  - exists (turn_bound GRID initial_state), path, gen, exp. split; [done|]. split.
    + intros fuel' r Hr. by apply (while_deterministic _ _ _ _ _ _ Hr Ha).
    + by destruct Hok as [_ Hgoal].
  - by destruct Hok as [_ [Hno _]].
Qed.

Lemma corridor_goal : goal_reachable corridor ((0, 0)%Z, {[ (0, 1)%Z ]}).
Proof.
  exists [Act.E; Act.V]. eexists. split; [vm_compute; reflexivity|].
  apply size_zero_goal. vm_compute. reflexivity.
Defined.

Lemma dfs_returns_valid_path_witness :
  rectangular corridor ∧ goal_reachable corridor ((0, 0)%Z, {[ (0, 1)%Z ]}) ∧
  ∃ fuel path gen exp,
    dfs corridor fuel ((0, 0)%Z, {[ (0, 1)%Z ]}) = Some (Ok (Some path, gen, exp)) ∧
    (∀ fuel' r, dfs corridor fuel' ((0, 0)%Z, {[ (0, 1)%Z ]}) = Some r →
       r = Ok (Some path, gen, exp)) ∧
    ∃ s', replay corridor ((0, 0)%Z, {[ (0, 1)%Z ]}) path = Some s' ∧ s'.2 = ∅.
Proof.
  split; [exact corridor_rectangular|]. split; [exact corridor_goal|].
  exact (dfs_returns_valid_path corridor _ corridor_rectangular corridor_goal).
Defined.

(** C1.  When a goal can be reached, [ucs] returns a path that reaches a
    goal and whose length is the shortest distance from the initial state
    to a goal: no action sequence that reaches a goal is shorter. *)
Theorem ucs_returns_shortest_path (GRID : grid) (initial_state : state) :
  rectangular GRID → goal_reachable GRID initial_state →
  ∃ fuel path gen exp,
    ucs GRID fuel initial_state = Some (Ok (Some path, gen, exp)) ∧
    (∀ fuel' r, ucs GRID fuel' initial_state = Some r → r = Ok (Some path, gen, exp)) ∧
    reaches_goal GRID initial_state path ∧
    shortest_distance GRID initial_state (length path) ∧
    (∀ path', reaches_goal GRID initial_state path' → length path ≤ length path').
Proof.
  intros Hrect Hreach.
  destruct (ucs_terminates GRID initial_state Hrect) as ([[found gen] exp] & Ha & Hok).
  destruct found as [path|]; [|by destruct Hok as [_ [Hno _]]].
  destruct Hok as [_ Hgoal].
  assert (∀ path', reaches_goal GRID initial_state path' → length path ≤ length path')
    as Hshort.
  { intros path'.
    apply (ucs_while_optimal GRID initial_state _ _ _ path path' gen exp
             (ucs_inv_start GRID initial_state) Ha). }
  exists (turn_bound GRID initial_state), path, gen, exp.
  split; [done|]. split.
  { intros fuel' r Hr. by apply (while_deterministic _ _ _ _ _ _ Hr Ha). }
  split; [done|]. split; [|done].
  split; [by exists path|done].
Qed.

Lemma ucs_returns_shortest_path_witness :
  rectangular corridor ∧ goal_reachable corridor ((0, 0)%Z, {[ (0, 1)%Z ]}) ∧
  ∃ fuel path gen exp,
    ucs corridor fuel ((0, 0)%Z, {[ (0, 1)%Z ]}) = Some (Ok (Some path, gen, exp)) ∧
    (∀ fuel' r, ucs corridor fuel' ((0, 0)%Z, {[ (0, 1)%Z ]}) = Some r →
       r = Ok (Some path, gen, exp)) ∧
    reaches_goal corridor ((0, 0)%Z, {[ (0, 1)%Z ]}) path ∧
    shortest_distance corridor ((0, 0)%Z, {[ (0, 1)%Z ]}) (length path) ∧
    (∀ path', reaches_goal corridor ((0, 0)%Z, {[ (0, 1)%Z ]}) path' →
       length path ≤ length path').
Proof.
  split; [exact corridor_rectangular|]. split; [exact corridor_goal|].
  exact (ucs_returns_shortest_path corridor _ corridor_rectangular corridor_goal).
Defined.

(** Scenario B: in the corridor [ucs] returns [[E; V]]; so does [dfs],
    which takes the entry pushed last, one turn earlier. *)
Example corridor_searches :
  ucs corridor 10 ((0, 0)%Z, {[ (0, 1)%Z ]}) = Some (Ok (Some [Act.E; Act.V], 4, 4)) ∧
  dfs corridor 10 ((0, 0)%Z, {[ (0, 1)%Z ]}) = Some (Ok (Some [Act.E; Act.V], 4, 3)).
Proof. split; vm_compute; reflexivity. Qed.

(** * Further properties of the code *)

(** ** [find_robot_and_dirty] *)

Lemma find_in_row_dirty (r c : nat) (row : list string) (robot_pos : option position)
    (dirty : dirtyset) (p : position) :
  p ∈ (find_in_row r c row robot_pos dirty).2 ↔
  p ∈ dirty ∨ ∃ j, row !! j = Some "*" ∧ p = (Z.of_nat r, Z.of_nat (c + j)).
Proof.
  revert c robot_pos dirty. induction row as [|cell rest IH]; intros c robot_pos dirty.
  - simpl. split; [by left|]. by intros [?|(j & Hj & _)].
  - simpl. destruct (decide (cell = "@")) as [->|Hat]; [|destruct (decide (cell = "*")) as [->|Hst]];
      rewrite IH.
    + split.
      * intros [?|(j & Hj & ->)]; [by left|]. right. exists (S j). split; [done|].
        f_equal. lia.
      * intros [?|(j & Hj & ->)]; [by left|]. destruct j as [|j]; [done|].
        right. exists j. split; [done|]. f_equal. lia.
    + rewrite elem_of_union, elem_of_singleton. split.
      * intros [[->|?]|(j & Hj & ->)].
        -- right. exists 0. split; [done|]. f_equal. lia.
        -- by left.
        -- right. exists (S j). split; [done|]. f_equal. lia.
      * intros [?|(j & Hj & ->)]; [by left; right|]. destruct j as [|j].
        -- left; left. f_equal. lia.
        -- right. exists j. split; [done|]. f_equal. lia.
    + split.
      * intros [?|(j & Hj & ->)]; [by left|]. right. exists (S j). split; [done|].
        f_equal. lia.
      * intros [?|(j & Hj & ->)]; [by left|]. destruct j as [|j].
        -- simpl in Hj. by simplify_eq.
        -- right. exists j. split; [done|]. f_equal. lia.
Qed.

Lemma find_in_row_robot (r c : nat) (row : list string) (robot_pos : option position)
    (dirty : dirtyset) :
  ((find_in_row r c row robot_pos dirty).1 = robot_pos ∧ ∀ j, row !! j ≠ Some "@") ∨
  ∃ j, row !! j = Some "@" ∧
    (find_in_row r c row robot_pos dirty).1 = Some (Z.of_nat r, Z.of_nat (c + j)) ∧
    ∀ j', row !! j' = Some "@" → j' ≤ j.
Proof.
  revert c robot_pos dirty. induction row as [|cell rest IH]; intros c robot_pos dirty.
  - left. by split.
  - simpl. destruct (decide (cell = "@")) as [->|Hat].
    + right. destruct (IH (S c) (Some (Z.of_nat r, Z.of_nat c)) dirty)
        as [[Hres Hno]|(j & Hj & Hres & Hlast)].
      * exists 0. split; [done|]. rewrite Hres. split; [do 2 f_equal; lia|].
        intros [|j'] Hj'; [lia|]. by destruct (Hno j').
      * exists (S j). split; [done|]. rewrite Hres. split; [do 2 f_equal; lia|].
        intros [|j'] Hj'; [lia|]. apply Hlast in Hj'. lia.
    + assert (∀ rp d,
        ((find_in_row r (S c) rest rp d).1 = rp ∧ ∀ j, (cell :: rest) !! j ≠ Some "@") ∨
        ∃ j, (cell :: rest) !! j = Some "@" ∧
          (find_in_row r (S c) rest rp d).1 = Some (Z.of_nat r, Z.of_nat (c + j)) ∧
          ∀ j', (cell :: rest) !! j' = Some "@" → j' ≤ j) as Hstep.
      { intros rp d. destruct (IH (S c) rp d) as [[Hres Hno]|(j & Hj & Hres & Hlast)].
        - left. split; [done|]. intros [|j]; [simpl; congruence|apply Hno].
        - right. exists (S j). split; [done|]. rewrite Hres. split; [do 2 f_equal; lia|].
          intros [|j'] Hj'; [lia|]. apply Hlast in Hj'. lia. }
      destruct (decide (cell = "*")); apply Hstep.
Qed.

Lemma find_in_rows_dirty (r : nat) (rows : list (list string))
    (robot_pos : option position) (dirty : dirtyset) (p : position) :
  p ∈ (find_in_rows r rows robot_pos dirty).2 ↔
  p ∈ dirty ∨ ∃ i row j, rows !! i = Some row ∧ row !! j = Some "*" ∧
                 p = (Z.of_nat (r + i), Z.of_nat j).
Proof.
  revert r robot_pos dirty. induction rows as [|row rest IH]; intros r robot_pos dirty.
  - simpl. split; [by left|]. by intros [?|(i & row & j & Hi & _)].
  - simpl. destruct (find_in_row r 0 row robot_pos dirty) as [rp d] eqn:Hrow.
    rewrite IH. pose proof (find_in_row_dirty r 0 row robot_pos dirty p) as Hd.
    rewrite Hrow in Hd. simpl in Hd. rewrite Hd. split.
    + intros [[?|(j & Hj & ->)]|(i & row' & j & Hi & Hj & ->)].
      * by left.
      * right. exists 0, row, j. split; [done|]. split; [done|]. f_equal; lia.
      * right. exists (S i), row', j. split; [done|]. split; [done|]. f_equal; lia.
    + intros [?|(i & row' & j & Hi & Hj & ->)]; [by left; left|].
      destruct i as [|i].
      * simpl in Hi. simplify_eq. left; right. exists j. split; [done|]. f_equal; lia.
      * right. exists i, row', j. split; [done|]. split; [done|]. f_equal; lia.
Qed.

Lemma find_in_rows_robot (r : nat) (rows : list (list string))
    (robot_pos : option position) (dirty : dirtyset) :
  ((find_in_rows r rows robot_pos dirty).1 = robot_pos ∧
   ∀ i row j, rows !! i = Some row → row !! j ≠ Some "@") ∨
  ∃ i row j, rows !! i = Some row ∧ row !! j = Some "@" ∧
    (find_in_rows r rows robot_pos dirty).1 = Some (Z.of_nat (r + i), Z.of_nat j) ∧
    ∀ i' row' j', rows !! i' = Some row' → row' !! j' = Some "@" →
      i' < i ∨ (i' = i ∧ j' ≤ j).
Proof.
  revert r robot_pos dirty. induction rows as [|row rest IH]; intros r robot_pos dirty.
  - left. by split.
  - simpl. destruct (find_in_row r 0 row robot_pos dirty) as [rp d] eqn:Hrow.
    pose proof (find_in_row_robot r 0 row robot_pos dirty) as Hr.
    rewrite Hrow in Hr. simpl in Hr.
    destruct (IH (S r) rp d) as [[Hres Hno]|(i & row' & j & Hi & Hj & Hres & Hlast)].
    + rewrite Hres. destruct Hr as [[-> Hnorow]|(j & Hj & -> & Hlastj)].
      * left. split; [done|]. intros [|i] row' j Hi; simplify_eq/=; [apply Hnorow|].
        by eapply Hno.
      * right. exists 0, row, j. split; [done|]. split; [done|].
        split; [do 2 f_equal; lia|].
        intros [|i'] row' j' Hi' Hj'; simplify_eq/=.
        -- right. split; [done|]. by apply Hlastj.
        -- by destruct (Hno i' row' j').
    + right. exists (S i), row', j. split; [done|]. split; [done|].
      rewrite Hres. split; [do 2 f_equal; lia|].
      intros [|i'] row'' j' Hi' Hj'; [left; lia|]. simpl in Hi'.
      destruct (Hlast i' row'' j' Hi' Hj') as [?|[-> ?]]; [left; lia|right; lia].
Qed.

Lemma cell_at_Some (GRID : grid) (p : position) (cell : string) :
  cell_at GRID p = Some cell ↔
  ∃ i row j, GRID !! i = Some row ∧ row !! j = Some cell ∧
             p = (Z.of_nat i, Z.of_nat j).
Proof.
  destruct p as [r c]. unfold cell_at. simpl. split.
  - destruct (decide (0 ≤ r ∧ 0 ≤ c)%Z) as [[Hr Hc]|]; [|done].
    destruct (GRID !! Z.to_nat r) as [row|] eqn:Hrow; simpl; [|done].
    intros Hcell. exists (Z.to_nat r), row, (Z.to_nat c).
    split; [done|]. split; [done|]. f_equal; lia.
  - intros (i & row & j & Hi & Hj & [= -> ->]).
    rewrite decide_True by lia. rewrite !Nat2Z.id, Hi. simpl. done.
Qed.

Lemma find_robot_last_mark_aux (GRID : grid) :
  match (find_robot_and_dirty GRID).1 with
  | None => True
  | Some p => cell_at GRID p = Some "@"
  end.
Proof.
  unfold find_robot_and_dirty.
  destruct (find_in_rows_robot 0 GRID None ∅)
    as [[-> Hno]|(i & row & j & Hi & Hj & -> & Hlast)]; [done|].
  apply cell_at_Some. by exists i, row, j.
Qed.

(** X1.  The dirty set that [find_robot_and_dirty] returns holds exactly
    the positions of the cells marked ["*"], whatever the shape of the
    grid. *)
Theorem find_dirty_cells (GRID : grid) (p : position) :
  p ∈ (find_robot_and_dirty GRID).2 ↔ cell_at GRID p = Some "*".
Proof.
  unfold find_robot_and_dirty. rewrite find_in_rows_dirty, cell_at_Some.
  split.
  - intros [Hp|(i & row & j & Hi & Hj & ->)]; [by apply elem_of_empty in Hp|].
    by exists i, row, j.
  - intros (i & row & j & Hi & Hj & ->). right. by exists i, row, j.
Qed.

(** X2.  The robot position that [find_robot_and_dirty] returns is [None]
    exactly when no cell is marked ["@"]; otherwise it is the position of
    the last such cell in reading order (rows top to bottom, cells left to
    right): later marks overwrite earlier ones. *)
Theorem find_robot_last_mark (GRID : grid) :
  match (find_robot_and_dirty GRID).1 with
  | None => ∀ q, cell_at GRID q ≠ Some "@"
  | Some p => cell_at GRID p = Some "@" ∧ ∀ q, cell_at GRID q = Some "@" → pos_le q p
  end.
Proof.
  unfold find_robot_and_dirty.
  destruct (find_in_rows_robot 0 GRID None ∅)
    as [[-> Hno]|(i & row & j & Hi & Hj & -> & Hlast)].
  - intros q (i & row & j & Hi & Hj & _)%cell_at_Some. by destruct (Hno i row j).
  - split; [apply cell_at_Some; by exists i, row, j|].
    intros q (i' & row' & j' & Hi' & Hj' & ->)%cell_at_Some.
    unfold pos_le. simpl.
    destruct (Hlast i' row' j' Hi' Hj') as [?|[-> ?]]; [left; lia|right; lia].
Qed.

(** X3.  The initial state that [find_robot_and_dirty] reads off a grid is
    well formed: the robot and every dirty cell are on cells of the grid
    that are not walls, and the robot's own cell is not dirty, so that
    [move] rejects a cleaning action in the initial state. *)
Theorem initial_state_well_formed (GRID : grid) (robot_pos : position) :
  (find_robot_and_dirty GRID).1 = Some robot_pos →
  on_open_cell GRID robot_pos ∧
  (∀ q, q ∈ (find_robot_and_dirty GRID).2 → on_open_cell GRID q) ∧
  (robot_pos ∉ (find_robot_and_dirty GRID).2) ∧
  move GRID robot_pos (find_robot_and_dirty GRID).2 Act.V = Ok None.
Proof.
  intros Hrobot.
  assert (cell_at GRID robot_pos = Some "@") as Hat.
  { pose proof (find_robot_last_mark_aux GRID) as H. by rewrite Hrobot in H. }
  assert (robot_pos ∉ (find_robot_and_dirty GRID).2) as Hclean.
  { unfold find_robot_and_dirty. rewrite find_in_rows_dirty.
    intros [Hp|(i & row & j & Hi & Hj & ->)]; [by apply elem_of_empty in Hp|].
    assert (cell_at GRID (Z.of_nat (0 + i), Z.of_nat j) = Some "*") as Hstar.
    { apply cell_at_Some. by exists i, row, j. }
    congruence. }
  split; [by exists "@"|]. split; [|split; [done|]].
  - intros q Hq. exists "*". split; [|done].
    unfold find_robot_and_dirty in Hq. apply find_in_rows_dirty in Hq
      as [Hq|(i & row & j & Hi & Hj & ->)]; [by apply elem_of_empty in Hq|].
    apply cell_at_Some. by exists i, row, j.
  - rewrite move_V. by rewrite decide_False.
Qed.

Lemma initial_state_well_formed_witness :
  (find_robot_and_dirty two_robots).1 = Some (1, 1)%Z ∧
  on_open_cell two_robots (1, 1)%Z ∧
  (∀ q, q ∈ (find_robot_and_dirty two_robots).2 → on_open_cell two_robots q) ∧
  ((1, 1)%Z ∉ (find_robot_and_dirty two_robots).2) ∧
  move two_robots (1, 1)%Z (find_robot_and_dirty two_robots).2 Act.V = Ok None.
Proof.
  assert ((find_robot_and_dirty two_robots).1 = Some (1, 1)%Z) as Hrobot by reflexivity.
  split; [exact Hrobot|].
  exact (initial_state_well_formed two_robots (1, 1)%Z Hrobot).
Defined.

(** ** More on [move] and on replaying paths *)

Lemma getitem_Ok_lookup {A : Type} (l : list A) (i : Z) (x : A) :
  (0 ≤ i)%Z → getitem l i = Ok x ↔ l !! Z.to_nat i = Some x.
Proof.
  intros Hi. rewrite getitem_nonneg by done.
  destruct (l !! Z.to_nat i); split; congruence.
Qed.

(** What an accepted action does to the position and to the dirt. *)
Lemma move_accepted (GRID : grid) (p : position) (dirty : dirtyset) (action : Action)
    (s' : state) :
  move GRID p dirty action = Ok (Some s') →
  (action = Act.V ∧ p ∈ dirty ∧ s' = (p, dirty ∖ {[p]})) ∨
  (action ≠ Act.V ∧ s'.2 = dirty ∧ on_open_cell GRID s'.1).
Proof.
  destruct p as [r c]. destruct (decide (action = Act.V)) as [->|Hne].
  - rewrite move_V. destruct (decide _); [|done]. intros [= <-]. by left.
  - destruct (MOVES_direction _ Hne) as ([dr dc] & HM & _).
    rewrite (move_direction _ _ _ _ _ _ _ HM).
    destruct (decide (0 ≤ r + dr < _)%Z) as [Hr|]; [|done].
    destruct (getitem GRID 0) as [row0|]; simpl; [|done].
    destruct (decide (0 ≤ c + dc < _)%Z) as [Hc|]; [|done].
    destruct (getitem GRID (r + dr)%Z) as [row|] eqn:Hrow; simpl; [|done].
    destruct (getitem row (c + dc)%Z) as [cell|] eqn:Hcell; simpl; [|done].
    destruct (decide (cell ≠ _)) as [Hopen|]; [|done]. intros [= <-].
    right. split; [done|]. split; [done|]. exists cell. split; [|done].
    apply getitem_Ok_lookup in Hrow; [|lia]. apply getitem_Ok_lookup in Hcell; [|lia].
    unfold cell_at. simpl. rewrite decide_True by lia. rewrite Hrow. simpl. done.
Qed.

(** X4.  [move] raises only in one situation: the action is a direction,
    the target row exists, the target column is inside the first row but
    beyond the end of the target row.  The exception is then [IndexError];
    in particular [move] never raises on the cleaning action, and never
    fails to find an action in [MOVES]. *)
Theorem move_raises_iff (GRID : grid) (r c : Z) (dirty : dirtyset) (action : Action)
    (e : exn) :
  move GRID (r, c) dirty action = Raise e ↔
  e = IndexError ∧
  ∃ dr dc row, MOVES action = Some (dr, dc) ∧ (0 ≤ r + dr)%Z ∧
    GRID !! Z.to_nat (r + dr) = Some row ∧
    (Z.of_nat (length row) ≤ c + dc < Z.of_nat (columns_of GRID))%Z.
Proof.
  destruct (decide (action = Act.V)) as [->|Hne].
  { rewrite move_V. split.
    - by destruct (decide _).
    - by intros (_ & dr & dc & row & [=] & _). }
  destruct (MOVES_direction _ Hne) as ([dr dc] & HM & _).
  rewrite (move_direction _ _ _ _ _ _ _ HM). unfold columns_of. rewrite head_lookup.
  split.
  - destruct (decide (0 ≤ r + dr < _)%Z) as [Hr|]; [|done].
    rewrite (getitem_nonneg GRID 0) by lia. change (Z.to_nat 0) with 0.
    destruct (lookup_lt_is_Some_2 GRID 0) as [row0 Hrow0]; [lia|].
    destruct (lookup_lt_is_Some_2 GRID (Z.to_nat (r + dr))) as [row Hrow]; [lia|].
    rewrite Hrow0. simpl.
    destruct (decide (0 ≤ c + dc < _)%Z) as [Hc|]; [|done].
    rewrite (getitem_nonneg GRID (r + dr)) by lia. rewrite Hrow. simpl.
    rewrite (getitem_nonneg row (c + dc)) by lia.
    destruct (row !! Z.to_nat (c + dc)) as [cell|] eqn:Hcell; simpl.
    { by destruct (decide _). }
    intros [= <-]. split; [done|]. exists dr, dc, row.
    split; [done|]. split; [lia|]. split; [done|].
    apply lookup_ge_None_1 in Hcell. lia.
  - intros (-> & dr' & dc' & row & HM' & Hr & Hrow & Hc).
    rewrite HM in HM'. injection HM' as <- <-.
    pose proof (lookup_lt_Some _ _ _ Hrow) as Hlt.
    rewrite decide_True by lia.
    rewrite (getitem_nonneg GRID 0) by lia. change (Z.to_nat 0) with 0.
    destruct (GRID !! 0) as [row0|] eqn:Hrow0; simpl in *; [|lia].
    rewrite decide_True by lia.
    rewrite (getitem_nonneg GRID (r + dr)) by lia. rewrite Hrow. simpl.
    rewrite (getitem_nonneg row (c + dc)) by lia.
    rewrite (lookup_ge_None_2 row); [done|lia].
Qed.

(** X5.  Replaying any path, accepted step by step, from a state whose
    robot stands on an open cell of the grid ends in a state whose robot
    stands on an open cell again, and whose dirty cells were all dirty at
    the start: moving never leaves the grid or enters a wall, and nothing
    ever gets dirty. *)
Theorem replay_keeps_state_well_formed (GRID : grid) (s s' : state) (path : list Action) :
  on_open_cell GRID s.1 → replay GRID s path = Some s' →
  on_open_cell GRID s'.1 ∧ s'.2 ⊆ s.2.
Proof.
  revert s. induction path as [|action path IH]; intros s Hopen; simpl.
  - intros [= <-]. by split.
  - destruct (move GRID s.1 s.2 action) as [[t|]|] eqn:Hm; try done.
    intros Hp. apply move_accepted in Hm as [(_ & _ & ->)|(_ & Hd & Ht)].
    + destruct (IH (s.1, s.2 ∖ {[s.1]}) Hopen Hp) as [? Hsub]. split; [done|].
      etrans; [exact Hsub|]. simpl. apply subseteq_difference_l. done.
    + destruct (IH _ Ht Hp) as [? Hsub]. split; [done|]. by rewrite <- Hd.
Qed.

Lemma corridor_replay :
  replay corridor ((0, 0)%Z, {[ (0, 1)%Z ]}) [Act.E; Act.V] =
    Some ((0, 1)%Z, {[ (0, 1)%Z ]} ∖ {[ (0, 1)%Z ]}).
Proof. reflexivity. Defined.

Lemma replay_keeps_state_well_formed_witness :
  on_open_cell corridor (0, 0)%Z ∧
  on_open_cell corridor (0, 1)%Z ∧
  ({[ (0, 1)%Z ]} ∖ {[ (0, 1)%Z ]} : dirtyset) ⊆ {[ (0, 1)%Z ]}.
Proof.
  assert (on_open_cell corridor (0, 0)%Z) as Hopen.
  { exists "@". split; [reflexivity|discriminate]. }
  split; [exact Hopen|].
  exact (replay_keeps_state_well_formed corridor ((0, 0)%Z, {[ (0, 1)%Z ]}) _
           [Act.E; Act.V] Hopen corridor_replay).
Defined.

(** X6.  Along a replayed path every cleaning action removes one dirty
    cell and no other action removes any: the dirt at the start is the
    number of cleaning actions plus the dirt left.  So a path that reaches
    a goal cleans exactly as often as there were dirty cells, and is at
    least that long. *)
Theorem replay_counts_cleanings (GRID : grid) (s s' : state) (path : list Action) :
  replay GRID s path = Some s' →
  size s.2 = cleanings path + size s'.2 ∧
  (is_goal s' → cleanings path = size s.2 ∧ size s.2 ≤ length path).
Proof.
  intros Hp.
  assert (size s.2 = cleanings path + size s'.2) as Hsize.
  { revert s Hp. induction path as [|action path IH]; intros s; simpl.
    - by intros [= <-].
    - destruct (move GRID s.1 s.2 action) as [[t|]|] eqn:Hm; try done.
      intros Hp. apply IH in Hp. unfold cleanings in *. rewrite filter_cons.
      apply move_accepted in Hm as [(-> & Hin & ->)|(Hne & Hd & _)].
      + rewrite decide_True by done. simpl in *.
        assert (size s.2 = 1 + size (s.2 ∖ {[s.1]})); [|lia].
        rewrite (union_difference_L {[s.1]} s.2) at 1 by set_solver.
        rewrite size_union by set_solver. by rewrite size_singleton.
      + rewrite decide_False by done. by rewrite <- Hd. }
  split; [done|]. intros Hgoal%size_zero_goal.
  split; [lia|]. unfold cleanings in Hsize.
  pose proof (length_filter (λ action, action = Act.V) path). lia.
Qed.

Lemma replay_counts_cleanings_witness :
  size ({[ (0, 1)%Z ]} : dirtyset) =
    cleanings [Act.E; Act.V] + size ({[ (0, 1)%Z ]} ∖ {[ (0, 1)%Z ]} : dirtyset).
Proof.
  exact (proj1 (replay_counts_cleanings corridor ((0, 0)%Z, {[ (0, 1)%Z ]}) _
                  [Act.E; Act.V] corridor_replay)).
Defined.

(** ** More invariants of the two loops *)

Section carried.
Context {Vars : Type} (GRID : grid) (init : state).
Context (body : Vars → res (Vars + answer)) (view : Vars → config).
Hypothesis body_step :
  ∀ v r, body v = Ok r → search_step GRID (view v) (sum_map view id r).
Variable I : config → Prop.
Hypothesis I_step :
  ∀ c c', search_inv GRID init c → I c → search_step GRID c (inl c') → I c'.

Lemma turns_carries (n : nat) (v v' : Vars) :
  search_inv GRID init (view v) → I (view v) → turns body n v = Some v' →
  I (view v').
Proof.
  revert v. induction n as [|n IH]; intros v Hinv HI; simpl.
  - by intros [= <-].
  - destruct (body v) as [[v1|a]|e] eqn:Hb; try done.
    pose proof (body_step _ _ Hb) as Hstep. simpl in Hstep.
    apply IH; [by eapply search_inv_step|by eapply I_step].
Qed.

Lemma while_carries (fuel : nat) (v : Vars) (a : answer) :
  search_inv GRID init (view v) → I (view v) → while body fuel v = Some (Ok a) →
  ∃ c, search_inv GRID init c ∧ I c ∧ search_step GRID c (inr a).
Proof.
  revert v. induction fuel as [|fuel IH]; intros v Hinv HI; simpl; [done|].
  destruct (body v) as [[v1|a1]|e] eqn:Hb; [| |done].
  - pose proof (body_step _ _ Hb) as Hstep. simpl in Hstep.
    apply IH; [by eapply search_inv_step|by eapply I_step].
  - intros [= <-]. exists (view v). split; [done|]. split; [done|].
    apply (body_step _ _ Hb).
Qed.
End carried.

Lemma effort_inv_step (GRID : grid) (init : state) (c c' : config) :
  search_inv GRID init c → effort_inv c → search_step GRID c (inl c') → effort_inv c'.
Proof.
  intros _ (Hone & Hgen & Hseen & Hpaths) Hstep.
  inversion Hstep as [| |l1 l2 s path vis gen exp Hng Hin
                       |l1 l2 s path vis gen exp Hng Hnin]; subst;
    unfold effort_inv; simpl in *.
  - split; [done|]. split; [lia|]. split; [lia|].
    intros t p Ht. assert (length p ≤ exp); [|lia]. apply (Hpaths t p).
    rewrite elem_of_app, elem_of_cons. apply elem_of_app in Ht. tauto.
  - pose proof (length_children GRID s path).
    split; [lia|]. split; [lia|]. split.
    + rewrite size_union_alt, size_singleton.
      assert (size (vis ∖ {[state_id s]}) ≤ size vis); [|lia].
      apply subseteq_size, subseteq_difference_l. done.
    + intros t p [Ht|Ht]%elem_of_app.
      * assert (length p ≤ exp); [|lia]. apply (Hpaths t p).
        rewrite elem_of_app, elem_of_cons. apply elem_of_app in Ht. tauto.
      * apply elem_of_children in Ht as (a & t' & [= -> ->] & _).
        rewrite length_app. simpl.
        assert (length path ≤ exp); [|lia]. apply (Hpaths s path).
        rewrite elem_of_app, elem_of_cons. auto.
Qed.

Lemma effort_inv_init (init : state) : effort_inv (Config [(init, [])] ∅ 1 0).
Proof.
  unfold effort_inv. split; [done|]. split; [simpl; lia|].
  split; [change (size (∅ : gset state_key) ≤ 0); by rewrite size_empty|].
  by intros s path [= -> ->]%list_elem_of_singleton.
Qed.

Lemma seen_inv_step (GRID : grid) (init : state) (c c' : config) :
  search_inv GRID init c → seen_inv GRID init c → search_step GRID c (inl c') →
  seen_inv GRID init c'.
Proof.
  intros Hinv Hseen Hstep.
  inversion Hstep as [| |l1 l2 s path vis gen exp Hng Hin
                       |l1 l2 s path vis gen exp Hng Hnin]; subst; [done|].
  intros k [->%elem_of_singleton|Hk]%elem_of_union; [|by apply Hseen].
  exists s, path. split; [done|]. split; [|done].
  apply (inv_paths _ _ _ Hinv). simpl. rewrite elem_of_app, elem_of_cons. auto.
Qed.

Lemma seen_inv_init (GRID : grid) (init : state) :
  seen_inv GRID init (Config [(init, [])] ∅ 1 0).
Proof. intros k Hk. by apply elem_of_empty in Hk. Qed.

(** ** The states along a path *)

Lemma trace_replay_last (GRID : grid) (s s' : state) (path : list Action) :
  replay GRID s path = Some s' → ∃ before, trace GRID s path = before ++ [s'].
Proof.
  revert s. induction path as [|action path IH]; intros s; simpl.
  - intros [= <-]. by exists [].
  - destruct (move GRID s.1 s.2 action) as [[t|]|]; try done.
    intros [before Hb]%IH. exists (s :: before). by rewrite Hb.
Qed.

Lemma trace_snoc (GRID : grid) (s s' s'' : state) (path : list Action) (action : Action) :
  replay GRID s path = Some s' → move GRID s'.1 s'.2 action = Ok (Some s'') →
  trace GRID s (path ++ [action]) = trace GRID s path ++ [s''].
Proof.
  revert s. induction path as [|a path IH]; intros s; simpl.
  - intros [= <-] ->. done.
  - destruct (move GRID s.1 s.2 a) as [[t|]|]; try done.
    intros Hp Hm. by rewrite (IH t Hp Hm).
Qed.

Lemma length_trace (GRID : grid) (s s' : state) (path : list Action) :
  replay GRID s path = Some s' → length (trace GRID s path) = S (length path).
Proof.
  revert s. induction path as [|a path IH]; intros s; simpl; [done|].
  destruct (move GRID s.1 s.2 a) as [[t|]|]; try done.
  intros Hp. by rewrite (IH t Hp).
Qed.

Lemma simple_inv_init (GRID : grid) (init : state) :
  simple_inv GRID init (Config [(init, [])] ∅ 1 0).
Proof.
  intros s path before [= -> ->]%list_elem_of_singleton. simpl.
  intros Hb. destruct before as [|t [|t' before]]; simplify_eq/=.
  split; [constructor|]. intros t Ht. by apply elem_of_nil in Ht.
Qed.

Lemma simple_inv_step (GRID : grid) (init : state) (c c' : config) :
  search_inv GRID init c → simple_inv GRID init c → search_step GRID c (inl c') →
  simple_inv GRID init c'.
Proof.
  intros Hinv Hsimple Hstep.
  inversion Hstep as [| |l1 l2 s path vis gen exp Hng Hin
                       |l1 l2 s path vis gen exp Hng Hnin]; subst; simpl in *.
  - intros t p before Ht. apply (Hsimple t p before). simpl.
    rewrite elem_of_app, elem_of_cons. apply elem_of_app in Ht. tauto.
  - assert ((s, path) ∈ l1 ++ (s, path) :: l2) as Hs.
    { rewrite elem_of_app, elem_of_cons. auto. }
    intros t p before [Ht|Ht]%elem_of_app Htrace.
    + destruct (Hsimple t p before) as [Hnd Hvis]; [|done|].
      { simpl. rewrite elem_of_app, elem_of_cons. apply elem_of_app in Ht. tauto. }
      split; [done|]. intros u Hu. apply elem_of_union_r. by apply Hvis.
    + apply elem_of_children in Ht as (a & t' & [= -> ->] & Hm).
      pose proof (inv_paths _ _ _ Hinv s path Hs) as Hp.
      rewrite (trace_snoc _ _ _ _ _ _ Hp Hm) in Htrace.
      apply app_inj_tail in Htrace as [<- _].
      destruct (trace_replay_last _ _ _ _ Hp) as [before0 Hb0].
      destruct (Hsimple s path before0 Hs Hb0) as [Hnd Hvis].
      rewrite Hb0. split.
      * apply NoDup_app. split; [done|]. split; [|apply NoDup_singleton].
        intros u Hu ->%list_elem_of_singleton. by apply Hnin, Hvis.
      * intros u [Hu | ->%list_elem_of_singleton]%elem_of_app.
        -- apply elem_of_union_r. by apply Hvis.
        -- apply elem_of_union_l. by apply elem_of_singleton.
Qed.

(** The path of a goal taken from the frontier goes through each of its
    states once. *)
Lemma simple_inv_answer (GRID : grid) (init : state) (c : config)
    (path : list Action) (gen exp : nat) :
  search_inv GRID init c → simple_inv GRID init c →
  search_step GRID c (inr (Some path, gen, exp)) →
  NoDup (trace GRID init path).
Proof.
  intros Hinv Hsimple Hstep.
  inversion Hstep as [|l1 l2 s path' vis gen' exp' Hgoal| |]; subst.
  assert ((s, path) ∈ l1 ++ (s, path) :: l2) as Hs.
  { rewrite elem_of_app, elem_of_cons. auto. }
  pose proof (inv_paths _ _ _ Hinv s path Hs) as Hp.
  destruct (trace_replay_last _ _ _ _ Hp) as [before Hb].
  destruct (Hsimple s path before Hs Hb) as [Hnd Hvis]. rewrite Hb.
  apply NoDup_app. split; [done|]. split; [|apply NoDup_singleton].
  intros u Hu Hus%list_elem_of_singleton. subst u.
  apply (inv_nongoal _ _ _ Hinv s); [|done]. by apply Hvis.
Qed.

(** ** More on the frontier of [ucs] *)

Lemma ucs_turns_inv (GRID : grid) (init : state) (n : nat) (g : state_key → nat)
    (v v' : Ucs.vars) :
  ucs_inv GRID init g v → turns (ucs_body GRID) n v = Some v' →
  ∃ g', ucs_inv GRID init g' v'.
Proof.
  revert g v. induction n as [|n IH]; intros g v Hinv; simpl.
  - intros [= <-]. eauto.
  - destruct (ucs_body GRID v) as [[v1|a]|e] eqn:Hb; try done.
    destruct (ucs_inv_step GRID init g v v1 Hinv Hb) as [g1 Hinv1]. by apply (IH g1).
Qed.

Lemma layered_step (GRID : grid) (v v' : Ucs.vars) :
  layered (Ucs.frontier v) → ucs_body GRID v = Ok (inl v') →
  layered (Ucs.frontier v').
Proof.
  intros Hlay Hb.
  apply ucs_body_cases in Hb as [[_ [=]]|(cost & s & path & Hi & Hcase)].
  assert (Ucs.frontier v ≠ []) as Hne by (by intros Hnil; rewrite Hnil in Hi).
  pose proof (lowest_index_first_cheapest _ Hne) as Hfirst.
  assert ((cost, s, path) ∈ Ucs.frontier v) as Hin by (by eapply list_elem_of_lookup_2).
  destruct Hcase as [[_ [=]]|[(_ & _ & [= ->])|(_ & _ & [= ->])]]; simpl.
  - intros e e' He He'. apply Hlay; by eapply list_elem_of_delete_inv.
  - intros e e' [He|He]%elem_of_app [He'|He']%elem_of_app.
    + apply Hlay; by eapply list_elem_of_delete_inv.
    + apply elem_of_ucs_children in He' as (a & t & -> & _).
      apply list_elem_of_delete_inv in He.
      pose proof (Hlay e _ He Hin) as Hle. unfold entry_cost in *. simpl in *. lia.
    + apply elem_of_ucs_children in He as (a & t & -> & _).
      apply list_elem_of_delete_inv in He'.
      pose proof (first_cheapest_min _ _ _ e' Hfirst Hi He') as Hle.
      unfold entry_cost in *. simpl in *. lia.
    + apply elem_of_ucs_children in He as (a & t & -> & _).
      apply elem_of_ucs_children in He' as (a' & t' & -> & _).
      unfold entry_cost. simpl. lia.
Qed.

Lemma layered_turns (GRID : grid) (n : nat) (v v' : Ucs.vars) :
  layered (Ucs.frontier v) → turns (ucs_body GRID) n v = Some v' →
  layered (Ucs.frontier v').
Proof.
  revert v. induction n as [|n IH]; intros v Hlay; simpl.
  - by intros [= <-].
  - destruct (ucs_body GRID v) as [[v1|a]|e] eqn:Hb; try done.
    apply IH. by eapply layered_step.
Qed.

(** After a turn that took an entry of cost [c], nothing in the frontier
    costs less than [c]. *)
Lemma ucs_floor_step (GRID : grid) (v v' : Ucs.vars) (e e' : ucs_entry) :
  ucs_body GRID v = Ok (inl v') →
  Ucs.frontier v !! lowest_index (Ucs.frontier v) = Some e →
  e' ∈ Ucs.frontier v' → entry_cost e ≤ entry_cost e'.
Proof.
  intros Hb He He'.
  apply ucs_body_cases in Hb as [[_ [=]]|(cost & s & path & Hi & Hcase)].
  rewrite He in Hi. injection Hi as ->.
  assert (Ucs.frontier v ≠ []) as Hne by (by intros Hnil; rewrite Hnil in He).
  pose proof (lowest_index_first_cheapest _ Hne) as Hfirst.
  destruct Hcase as [[_ [=]]|[(_ & _ & [= ->])|(_ & _ & [= ->])]]; simpl in He'.
  - apply list_elem_of_delete_inv in He'. by eapply first_cheapest_min.
  - apply elem_of_app in He' as [He'|He'].
    + apply list_elem_of_delete_inv in He'. by eapply first_cheapest_min.
    + apply elem_of_ucs_children in He' as (a & t & -> & _).
      unfold entry_cost. simpl. lia.
Qed.

Lemma ucs_floor_turns (GRID : grid) (n : nat) (v v' : Ucs.vars) (e e' : ucs_entry) :
  turns (ucs_body GRID) n v = Some v' →
  Ucs.frontier v !! lowest_index (Ucs.frontier v) = Some e →
  e' ∈ Ucs.frontier v' → entry_cost e ≤ entry_cost e'.
Proof.
  revert v e. induction n as [|n IH]; intros v e; simpl.
  - intros [= <-] He He'.
    assert (Ucs.frontier v ≠ []) as Hne by (by intros Hnil; rewrite Hnil in He).
    by eapply first_cheapest_min; [apply lowest_index_first_cheapest|..].
  - destruct (ucs_body GRID v) as [[v1|a]|ex] eqn:Hb; try done.
    intros Ht He He'.
    destruct (Ucs.frontier v1) as [|e0 fr1] eqn:Hfr1.
    + destruct n as [|n]; simpl in Ht.
      * injection Ht as <-. rewrite Hfr1 in He'. by apply elem_of_nil in He'.
      * unfold ucs_body in Ht. by rewrite Hfr1 in Ht.
    + destruct (lowest_index_first_cheapest (Ucs.frontier v1)) as (e1 & He1 & _).
      { by rewrite Hfr1. }
      trans (entry_cost e1).
      * eapply ucs_floor_step; [done..|]. by eapply list_elem_of_lookup_2.
      * eapply IH; done.
Qed.

(** ** The key of a state *)

(** X7.  The key under which a state is remembered as visited,
    [(robot_pos, tuple(sorted(dirty)))], determines the state: two states
    have the same key exactly when they have the same robot position and
    the same dirty cells.  Its second part lists the dirty cells, each
    once, in increasing order. *)
Theorem state_id_canonical (s1 s2 : state) :
  (state_id s1 = state_id s2 ↔ s1 = s2) ∧
  (state_id s1).1 = s1.1 ∧
  Sorted pos_le (state_id s1).2 ∧ NoDup (state_id s1).2 ∧
  ∀ p, p ∈ (state_id s1).2 ↔ p ∈ s1.2.
Proof.
  split; [split; [apply state_id_inj|by intros ->]|].
  split; [done|]. split; [apply sorted_Sorted|]. split.
  - unfold state_id, sorted. simpl. rewrite merge_sort_Permutation. apply NoDup_elements.
  - intros p. apply elem_of_sorted.
Qed.

(** ** What the searches return, on any grid *)

Lemma dfs_final (GRID : grid) (init : state) (I : config → Prop) (fuel : nat) (a : answer) :
  (∀ c c', search_inv GRID init c → I c → search_step GRID c (inl c') → I c') →
  I (Config [(init, [])] ∅ 1 0) →
  dfs GRID fuel init = Some (Ok a) →
  ∃ c, search_inv GRID init c ∧ I c ∧ search_step GRID c (inr a).
Proof.
  intros Hstep Hinit Ha.
  apply (while_carries GRID init (dfs_body GRID) dfs_view (dfs_body_step GRID) I Hstep
           fuel (dfs_init init) a (search_inv_init GRID init) Hinit Ha).
Qed.

Lemma ucs_final (GRID : grid) (init : state) (I : config → Prop) (fuel : nat) (a : answer) :
  (∀ c c', search_inv GRID init c → I c → search_step GRID c (inl c') → I c') →
  I (Config [(init, [])] ∅ 1 0) →
  ucs GRID fuel init = Some (Ok a) →
  ∃ c, search_inv GRID init c ∧ I c ∧ search_step GRID c (inr a).
Proof.
  intros Hstep Hinit Ha.
  apply (while_carries GRID init (ucs_body GRID) ucs_view (ucs_body_step GRID) I Hstep
           fuel (ucs_init init) a (search_inv_init GRID init) Hinit Ha).
Qed.

Lemma corridor_dfs_run :
  dfs corridor 10 ((0, 0)%Z, {[ (0, 1)%Z ]}) = Some (Ok (Some [Act.E; Act.V], 4, 3)).
Proof. vm_compute. reflexivity. Defined.

Lemma corridor_ucs_run :
  ucs corridor 10 ((0, 0)%Z, {[ (0, 1)%Z ]}) = Some (Ok (Some [Act.E; Act.V], 4, 4)).
Proof. vm_compute. reflexivity. Defined.

(** X8.  Whatever the grid, even one on which a search could raise: when
    [dfs] returns a path, replaying it from the initial state is accepted
    at every step and ends with nothing dirty; when it returns [None], no
    action sequence at all reaches a goal, and every generated node has
    been expanded. *)
Theorem dfs_answer_sound (GRID : grid) (initial_state : state) (fuel : nat)
    (found : option (list Action)) (gen exp : nat) :
  dfs GRID fuel initial_state = Some (Ok (found, gen, exp)) →
  match found with
  | Some path => reaches_goal GRID initial_state path
  | None => ¬ goal_reachable GRID initial_state ∧ exp = gen
  end.
Proof.
  intros Ha.
  pose proof (while_answer GRID initial_state (dfs_body GRID) dfs_view
                (dfs_body_step GRID) fuel (dfs_init initial_state) _
                (search_inv_init GRID initial_state) Ha) as [_ Hok].
  exact Hok.
Qed.

Lemma dfs_answer_sound_witness :
  reaches_goal corridor ((0, 0)%Z, {[ (0, 1)%Z ]}) [Act.E; Act.V].
Proof.
  exact (dfs_answer_sound corridor _ 10 (Some [Act.E; Act.V]) 4 3 corridor_dfs_run).
Defined.

(** X9.  Whatever the grid: when [ucs] returns a path, that path reaches a
    goal and no action sequence that reaches a goal is shorter; when it
    returns [None], no action sequence reaches a goal, and every generated
    node has been expanded. *)
Theorem ucs_answer_optimal (GRID : grid) (initial_state : state) (fuel : nat)
    (found : option (list Action)) (gen exp : nat) :
  ucs GRID fuel initial_state = Some (Ok (found, gen, exp)) →
  match found with
  | Some path =>
      reaches_goal GRID initial_state path ∧
      ∀ path', reaches_goal GRID initial_state path' → length path ≤ length path'
  | None => ¬ goal_reachable GRID initial_state ∧ exp = gen
  end.
Proof.
  intros Ha.
  pose proof (while_answer GRID initial_state (ucs_body GRID) ucs_view
                (ucs_body_step GRID) fuel (ucs_init initial_state) _
                (search_inv_init GRID initial_state) Ha) as [_ Hok].
  destruct found as [path|]; [|exact Hok]. split; [exact Hok|].
  intros path'.
  apply (ucs_while_optimal GRID initial_state _ _ _ path path' gen exp
           (ucs_inv_start GRID initial_state) Ha).
Qed.

Lemma ucs_answer_optimal_witness :
  reaches_goal corridor ((0, 0)%Z, {[ (0, 1)%Z ]}) [Act.E; Act.V] ∧
  ∀ path', reaches_goal corridor ((0, 0)%Z, {[ (0, 1)%Z ]}) path' →
    length [Act.E; Act.V] ≤ length path'.
Proof.
  exact (ucs_answer_optimal corridor _ 10 (Some [Act.E; Act.V]) 4 4 corridor_ucs_run).
Defined.

(** X10.  The two searches agree on whether there is a plan, and [ucs] is
    never beaten: whenever both return a path, the one of [ucs] is no
    longer than the one of [dfs]; and on a grid of [rows × columns] cells
    either both return [None] or both return a path. *)
Theorem ucs_no_longer_than_dfs (GRID : grid) (initial_state : state) :
  (∀ fuel fuel' p g e p' g' e',
     dfs GRID fuel initial_state = Some (Ok (Some p, g, e)) →
     ucs GRID fuel' initial_state = Some (Ok (Some p', g', e')) →
     length p' ≤ length p) ∧
  (rectangular GRID →
   ∃ fuel,
     (∃ g e g' e',
        dfs GRID fuel initial_state = Some (Ok (None, g, e)) ∧
        ucs GRID fuel initial_state = Some (Ok (None, g', e'))) ∨
     (∃ p g e p' g' e',
        dfs GRID fuel initial_state = Some (Ok (Some p, g, e)) ∧
        ucs GRID fuel initial_state = Some (Ok (Some p', g', e')))).
Proof.
  split.
  - intros fuel fuel' p g e p' g' e' Hd Hu.
    pose proof (while_answer GRID initial_state (dfs_body GRID) dfs_view
                  (dfs_body_step GRID) fuel (dfs_init initial_state) _
                  (search_inv_init GRID initial_state) Hd) as [_ Hreach].
    apply (ucs_while_optimal GRID initial_state _ _ _ p' p g' e'
             (ucs_inv_start GRID initial_state) Hu Hreach).
  - intros Hrect. exists (turn_bound GRID initial_state).
    destruct (dfs_terminates GRID initial_state Hrect) as ([[fd gd] ed] & Hd & _ & Hokd).
    destruct (ucs_terminates GRID initial_state Hrect) as ([[fu gu] eu] & Hu & _ & Hoku).
    destruct fd as [p|], fu as [p'|].
    + right. by exists p, gd, ed, p', gu, eu.
    + destruct Hoku as [Hno _]. destruct Hno. by exists p.
    + destruct Hokd as [Hno _]. destruct Hno. by exists p'.
    + left. by exists gd, ed, gu, eu.
Qed.

Lemma ucs_no_longer_than_dfs_witness :
  length [Act.E; Act.V] ≤ length [Act.E; Act.V] ∧
  (rectangular corridor ∧
   ∃ fuel,
     (∃ g e g' e',
        dfs corridor fuel ((0, 0)%Z, {[ (0, 1)%Z ]}) = Some (Ok (None, g, e)) ∧
        ucs corridor fuel ((0, 0)%Z, {[ (0, 1)%Z ]}) = Some (Ok (None, g', e'))) ∨
     (∃ p g e p' g' e',
        dfs corridor fuel ((0, 0)%Z, {[ (0, 1)%Z ]}) = Some (Ok (Some p, g, e)) ∧
        ucs corridor fuel ((0, 0)%Z, {[ (0, 1)%Z ]}) = Some (Ok (Some p', g', e')))).
Proof.
  pose proof (ucs_no_longer_than_dfs corridor ((0, 0)%Z, {[ (0, 1)%Z ]})) as [Hle Hagree].
  split.
  - exact (Hle 10 10 _ _ _ _ _ _ corridor_dfs_run corridor_ucs_run).
  - split; [exact corridor_rectangular|]. exact (Hagree corridor_rectangular).
Defined.

(** X11.  A path returned by [dfs] or by [ucs] never goes through the
    same state twice: the states met when replaying it from the initial
    state, the first and the last included, are pairwise different. *)
Theorem returned_paths_are_simple (GRID : grid) (initial_state : state) :
  (∀ fuel path gen exp,
     dfs GRID fuel initial_state = Some (Ok (Some path, gen, exp)) →
     NoDup (trace GRID initial_state path) ∧
     length (trace GRID initial_state path) = S (length path)) ∧
  (∀ fuel path gen exp,
     ucs GRID fuel initial_state = Some (Ok (Some path, gen, exp)) →
     NoDup (trace GRID initial_state path) ∧
     length (trace GRID initial_state path) = S (length path)).
Proof.
  split; intros fuel path gen exp Ha.
  - destruct (dfs_final GRID initial_state (simple_inv GRID initial_state) fuel _
               (simple_inv_step GRID initial_state) (simple_inv_init GRID initial_state) Ha)
      as (c & Hinv & Hsimple & Hstep).
    split; [by eapply simple_inv_answer|].
    destruct (search_inv_answer GRID initial_state c _ Hinv Hstep) as (_ & s & Hp & _).
    by eapply length_trace.
  - destruct (ucs_final GRID initial_state (simple_inv GRID initial_state) fuel _
               (simple_inv_step GRID initial_state) (simple_inv_init GRID initial_state) Ha)
      as (c & Hinv & Hsimple & Hstep).
    split; [by eapply simple_inv_answer|].
    destruct (search_inv_answer GRID initial_state c _ Hinv Hstep) as (_ & s & Hp & _).
    by eapply length_trace.
Qed.

Lemma returned_paths_are_simple_witness :
  (NoDup (trace corridor ((0, 0)%Z, {[ (0, 1)%Z ]}) [Act.E; Act.V]) ∧
   length (trace corridor ((0, 0)%Z, {[ (0, 1)%Z ]}) [Act.E; Act.V]) = 3) ∧
  (NoDup (trace corridor ((0, 0)%Z, {[ (0, 1)%Z ]}) [Act.E; Act.V]) ∧
   length (trace corridor ((0, 0)%Z, {[ (0, 1)%Z ]}) [Act.E; Act.V]) = 3).
Proof.
  pose proof (returned_paths_are_simple corridor ((0, 0)%Z, {[ (0, 1)%Z ]})) as [Hd Hu].
  split.
  - exact (Hd 10 _ _ _ corridor_dfs_run).
  - exact (Hu 10 _ _ _ corridor_ucs_run).
Defined.

(** ** Effort and bookkeeping *)

Lemma effort_answer (GRID : grid) (init : state) (c : config)
    (found : option (list Action)) (gen exp : nat) :
  search_inv GRID init c → effort_inv c → search_step GRID c (inr (found, gen, exp)) →
  1 ≤ exp ∧ gen ≤ 5 * exp + 1 ∧
  ∀ path, found = Some path → length path < exp ∧ gen + 4 ≤ 5 * exp.
Proof.
  intros Hinv (Hone & Hgen & _ & Hpaths) Hstep.
  pose proof (inv_count _ _ _ Hinv) as Hcount.
  inversion Hstep as [vis gen' exp'|l1 l2 s path vis gen' exp' Hgoal| |]; subst;
    simpl in *.
  - split; [lia|]. split; [lia|]. by intros path [=].
  - split; [lia|]. split; [lia|]. intros path' [= <-].
    assert (length path ≤ exp'); [|lia]. apply (Hpaths s path).
    rewrite elem_of_app, elem_of_cons. auto.
Qed.

(** X12.  The counters a search returns bound its work and its answer: at
    least one node is expanded; at most five nodes are generated for each
    expanded one, besides the first; and a returned path is shorter than
    the number of expanded nodes. *)
Theorem counters_bound_the_answer (GRID : grid) (initial_state : state) :
  (∀ fuel found gen exp,
     dfs GRID fuel initial_state = Some (Ok (found, gen, exp)) →
     1 ≤ exp ∧ gen ≤ 5 * exp + 1 ∧
     ∀ path, found = Some path → length path < exp ∧ gen + 4 ≤ 5 * exp) ∧
  (∀ fuel found gen exp,
     ucs GRID fuel initial_state = Some (Ok (found, gen, exp)) →
     1 ≤ exp ∧ gen ≤ 5 * exp + 1 ∧
     ∀ path, found = Some path → length path < exp ∧ gen + 4 ≤ 5 * exp).
Proof.
  split; intros fuel found gen exp Ha.
  - destruct (dfs_final GRID initial_state effort_inv fuel _
               (effort_inv_step GRID initial_state) (effort_inv_init initial_state) Ha)
      as (c & Hinv & Heffort & Hstep).
    by eapply effort_answer.
  - destruct (ucs_final GRID initial_state effort_inv fuel _
               (effort_inv_step GRID initial_state) (effort_inv_init initial_state) Ha)
      as (c & Hinv & Heffort & Hstep).
    by eapply effort_answer.
Qed.

Lemma counters_bound_the_answer_witness :
  (1 ≤ 3 ∧ 4 ≤ 5 * 3 + 1 ∧
   ∀ path, Some [Act.E; Act.V] = Some path → length path < 3 ∧ 4 + 4 ≤ 5 * 3) ∧
  (1 ≤ 4 ∧ 4 ≤ 5 * 4 + 1 ∧
   ∀ path, Some [Act.E; Act.V] = Some path → length path < 4 ∧ 4 + 4 ≤ 5 * 4).
Proof.
  pose proof (counters_bound_the_answer corridor ((0, 0)%Z, {[ (0, 1)%Z ]})) as [Hd Hu].
  split.
  - exact (Hd 10 _ _ _ corridor_dfs_run).
  - exact (Hu 10 _ _ _ corridor_ucs_run).
Defined.

Lemma corridor_dfs_turns :
  turns (dfs_body corridor) 2 (dfs_init ((0, 0)%Z, {[ (0, 1)%Z ]})) =
    Some (Dfs.Vars [(((0, 0)%Z, {[ (0, 1)%Z ]}), [Act.E; Act.W]);
                    (((0, 1)%Z, {[ (0, 1)%Z ]} ∖ {[ (0, 1)%Z ]}), [Act.E; Act.V])]
            ({[ state_id ((0, 1)%Z, {[ (0, 1)%Z ]}) ]} ∪
             ({[ state_id ((0, 0)%Z, {[ (0, 1)%Z ]}) ]} ∪ ∅)) 4 2).
Proof. vm_compute. reflexivity. Defined.

Lemma corridor_ucs_turns :
  turns (ucs_body corridor) 2 (ucs_init ((0, 0)%Z, {[ (0, 1)%Z ]})) =
    Some (Ucs.Vars [(2, ((0, 0)%Z, {[ (0, 1)%Z ]}), [Act.E; Act.W]);
                    (2, ((0, 1)%Z, {[ (0, 1)%Z ]} ∖ {[ (0, 1)%Z ]}), [Act.E; Act.V])]
            ({[ state_id ((0, 1)%Z, {[ (0, 1)%Z ]}) ]} ∪
             ({[ state_id ((0, 0)%Z, {[ (0, 1)%Z ]}) ]} ∪ ∅)) 4 2).
Proof. vm_compute. reflexivity. Defined.

(** X13.  At the head of every turn, every entry waiting in the stack of
    [dfs] or in the frontier of [ucs] carries a path that, replayed from
    the initial state, is accepted at every step and ends in the state of
    that entry; and in [ucs] the cost of the entry is the length of that
    path. *)
Theorem frontier_entries_replay (GRID : grid) (initial_state : state) :
  (∀ n v s path,
     turns (dfs_body GRID) n (dfs_init initial_state) = Some v →
     (s, path) ∈ Dfs.stack v → replay GRID initial_state path = Some s) ∧
  (∀ n v cost s path,
     turns (ucs_body GRID) n (ucs_init initial_state) = Some v →
     (cost, s, path) ∈ Ucs.frontier v →
     replay GRID initial_state path = Some s ∧ cost = length path).
Proof.
  split.
  - intros n v s path Hn Hin.
    pose proof (turns_inv GRID initial_state (dfs_body GRID) dfs_view
                  (dfs_body_step GRID) n (dfs_init initial_state) v
                  (search_inv_init GRID initial_state) Hn) as Hinv.
    by apply (inv_paths _ _ _ Hinv).
  - intros n v cost s path Hn Hin.
    pose proof (turns_inv GRID initial_state (ucs_body GRID) ucs_view
                  (ucs_body_step GRID) n (ucs_init initial_state) v
                  (search_inv_init GRID initial_state) Hn) as Hinv.
    destruct (ucs_turns_inv GRID initial_state n _ _ v
                (ucs_inv_start GRID initial_state) Hn) as [g Hucs].
    split.
    + apply (inv_paths _ _ _ Hinv). simpl.
      apply list_elem_of_fmap. by exists (cost, s, path).
    + symmetry. by apply (ucs_inv_cost _ _ _ _ Hucs cost s path).
Qed.

Lemma frontier_entries_replay_witness :
  replay corridor ((0, 0)%Z, {[ (0, 1)%Z ]}) [Act.E; Act.W] =
    Some ((0, 0)%Z, {[ (0, 1)%Z ]}) ∧
  (replay corridor ((0, 0)%Z, {[ (0, 1)%Z ]}) [Act.E; Act.W] =
     Some ((0, 0)%Z, {[ (0, 1)%Z ]}) ∧ 2 = length [Act.E; Act.W]).
Proof.
  pose proof (frontier_entries_replay corridor ((0, 0)%Z, {[ (0, 1)%Z ]})) as [Hd Hu].
  split.
  - apply (Hd 2 _ _ _ corridor_dfs_turns). simpl. apply list_elem_of_here.
  - apply (Hu 2 _ _ _ _ corridor_ucs_turns). simpl. apply list_elem_of_here.
Defined.

(** X14.  [ucs] works level by level.  At the head of every turn the costs
    in its frontier differ by at most one; and the cost of the entry it
    takes never goes down from one turn to a later one. *)
Theorem ucs_works_in_levels (GRID : grid) (initial_state : state) :
  (∀ n v e e',
     turns (ucs_body GRID) n (ucs_init initial_state) = Some v →
     e ∈ Ucs.frontier v → e' ∈ Ucs.frontier v → entry_cost e ≤ entry_cost e' + 1) ∧
  (∀ i j vi vj ei ej, i ≤ j →
     turns (ucs_body GRID) i (ucs_init initial_state) = Some vi →
     turns (ucs_body GRID) j (ucs_init initial_state) = Some vj →
     Ucs.frontier vi !! lowest_index (Ucs.frontier vi) = Some ei →
     Ucs.frontier vj !! lowest_index (Ucs.frontier vj) = Some ej →
     entry_cost ei ≤ entry_cost ej).
Proof.
  split.
  - intros n v e e' Hn. apply (layered_turns GRID n (ucs_init initial_state) v); [|done].
    intros e1 e2 ->%list_elem_of_singleton ->%list_elem_of_singleton. lia.
  - intros i j vi vj ei ej Hij Hi Hj Hei Hej.
    replace j with (i + (j - i)) in Hj by lia.
    rewrite turns_add, Hi in Hj. simpl in Hj.
    eapply ucs_floor_turns; [exact Hj|exact Hei|]. by eapply list_elem_of_lookup_2.
Qed.

Lemma ucs_works_in_levels_witness :
  entry_cost (2, ((0, 0)%Z, {[ (0, 1)%Z ]}), [Act.E; Act.W]) ≤
    entry_cost (2, ((0, 0)%Z, {[ (0, 1)%Z ]}), [Act.E; Act.W]) + 1 ∧
  entry_cost (0, ((0, 0)%Z, {[ (0, 1)%Z ]}), @nil Action) ≤
    entry_cost (2, ((0, 0)%Z, {[ (0, 1)%Z ]}), [Act.E; Act.W]).
Proof.
  pose proof (ucs_works_in_levels corridor ((0, 0)%Z, {[ (0, 1)%Z ]})) as [Hlev Hup].
  split.
  - apply (Hlev 2 _ _ _ corridor_ucs_turns); simpl; apply list_elem_of_here.
  - apply (Hup 0 2 _ _ _ _ (Nat.le_0_l 2) eq_refl corridor_ucs_turns);
      vm_compute; reflexivity.
Defined.

(** X15.  The visited set of either search only grows from turn to turn;
    it never holds more keys than nodes have been expanded; and every key
    in it is the key of a state that is not a goal and that some accepted
    action sequence reaches from the initial state. *)
Theorem visited_bookkeeping (GRID : grid) (initial_state : state) :
  (∀ n m v v',
     turns (dfs_body GRID) n (dfs_init initial_state) = Some v →
     turns (dfs_body GRID) m v = Some v' →
     Dfs.visited v ⊆ Dfs.visited v' ∧
     size (Dfs.visited v) ≤ Dfs.nodes_expanded v ∧
     ∀ k, k ∈ Dfs.visited v → ∃ s path,
       k = state_id s ∧ replay GRID initial_state path = Some s ∧ ¬ is_goal s) ∧
  (∀ n m v v',
     turns (ucs_body GRID) n (ucs_init initial_state) = Some v →
     turns (ucs_body GRID) m v = Some v' →
     Ucs.visited v ⊆ Ucs.visited v' ∧
     size (Ucs.visited v) ≤ Ucs.nodes_expanded v ∧
     ∀ k, k ∈ Ucs.visited v → ∃ s path,
       k = state_id s ∧ replay GRID initial_state path = Some s ∧ ¬ is_goal s).
Proof.
  split; intros n m v v' Hn Hm.
  - split; [by eapply dfs_turns_visited|]. split.
    + pose proof (turns_carries GRID initial_state (dfs_body GRID) dfs_view
                    (dfs_body_step GRID) effort_inv (effort_inv_step GRID initial_state)
                    n (dfs_init initial_state) v (search_inv_init GRID initial_state)
                    (effort_inv_init initial_state) Hn) as (_ & _ & Hsize & _).
      exact Hsize.
    + apply (turns_carries GRID initial_state (dfs_body GRID) dfs_view
               (dfs_body_step GRID) (seen_inv GRID initial_state)
               (seen_inv_step GRID initial_state)
               n (dfs_init initial_state) v (search_inv_init GRID initial_state)
               (seen_inv_init GRID initial_state) Hn).
  - split; [by eapply ucs_turns_visited|]. split.
    + pose proof (turns_carries GRID initial_state (ucs_body GRID) ucs_view
                    (ucs_body_step GRID) effort_inv (effort_inv_step GRID initial_state)
                    n (ucs_init initial_state) v (search_inv_init GRID initial_state)
                    (effort_inv_init initial_state) Hn) as (_ & _ & Hsize & _).
      exact Hsize.
    + apply (turns_carries GRID initial_state (ucs_body GRID) ucs_view
               (ucs_body_step GRID) (seen_inv GRID initial_state)
               (seen_inv_step GRID initial_state)
               n (ucs_init initial_state) v (search_inv_init GRID initial_state)
               (seen_inv_init GRID initial_state) Hn).
Qed.

Lemma visited_bookkeeping_witness :
  (∃ v, turns (dfs_body corridor) 2 (dfs_init ((0, 0)%Z, {[ (0, 1)%Z ]})) = Some v ∧
        size (Dfs.visited v) ≤ Dfs.nodes_expanded v) ∧
  (∃ v, turns (ucs_body corridor) 2 (ucs_init ((0, 0)%Z, {[ (0, 1)%Z ]})) = Some v ∧
        size (Ucs.visited v) ≤ Ucs.nodes_expanded v).
Proof.
  pose proof (visited_bookkeeping corridor ((0, 0)%Z, {[ (0, 1)%Z ]})) as [Hd Hu].
  split.
  - eexists. split; [exact corridor_dfs_turns|].
    exact (proj1 (proj2 (Hd 2 0 _ _ corridor_dfs_turns eq_refl))).
  - eexists. split; [exact corridor_ucs_turns|].
    exact (proj1 (proj2 (Hu 2 0 _ _ corridor_ucs_turns eq_refl))).
Defined.

(** ** The order in which [dfs] explores *)

Lemma successors_app (GRID : grid) (s : state) (l1 l2 : list Action) :
  successors GRID s (l1 ++ l2) = successors GRID s l1 ++ successors GRID s l2.
Proof.
  induction l1 as [|a l1 IH]; simpl; [done|].
  destruct (move GRID s.1 s.2 a) as [[t|]|]; simpl; by rewrite IH.
Qed.

Lemma children_clean_last (GRID : grid) (s : state) (path : list Action) :
  s.1 ∈ s.2 →
  ∃ others, children GRID s path =
    others ++ [((s.1, s.2 ∖ {[s.1]}), path ++ [Act.V])].
Proof.
  intros Hin. unfold children.
  change ACTIONS with ([Act.N; Act.S; Act.E; Act.W] ++ [Act.V]).
  rewrite successors_app, fmap_app. eexists. f_equal.
  simpl. rewrite move_V. by rewrite decide_True.
Qed.

(** X16.  [dfs] goes on with the node it pushed last.  After a turn that
    expands a state, the next entry it takes is the successor by the last
    accepted action in the order of [ACTIONS], and the stack below the
    expanded entry is left as it was; when no action is accepted the
    stack is just that.  In particular, when the robot stands on a dirty
    cell, the next state [dfs] looks at is the one with that cell
    cleaned. *)
Theorem dfs_takes_last_child (GRID : grid) (v v' : Dfs.vars) (stk : list node)
    (s : state) (path : list Action) :
  pop (Dfs.stack v) = Some (stk, (s, path)) →
  ¬ is_goal s → state_id s ∉ Dfs.visited v →
  dfs_body GRID v = Ok (inl v') →
  Dfs.stack v' = stk ++ children GRID s path ∧
  (∀ others child, children GRID s path = others ++ [child] →
     pop (Dfs.stack v') = Some (stk ++ others, child)) ∧
  (s.1 ∈ s.2 →
   ∃ others, pop (Dfs.stack v') =
     Some (stk ++ others, ((s.1, s.2 ∖ {[s.1]}), path ++ [Act.V]))).
Proof.
  intros Hpop Hng Hnin Hb.
  apply dfs_body_cases in Hb as [[Hnil _]|(stk1 & s1 & path1 & Hpop1 & Hcase)].
  { by rewrite Hnil in Hpop. }
  rewrite Hpop in Hpop1. injection Hpop1 as <- <- <-.
  destruct Hcase as [[_ [=]]|[(_ & Hin & _)|(_ & _ & [= ->])]]; [done|]. simpl.
  split; [done|]. split.
  - intros others child ->. rewrite app_assoc. apply pop_snoc.
  - intros Hin. destruct (children_clean_last GRID s path Hin) as [others ->].
    exists others. rewrite app_assoc. apply pop_snoc.
Qed.

Lemma dfs_takes_last_child_witness :
  ∃ v', dfs_body (one_cell "_") (Dfs.Vars [(((0, 0)%Z, {[ (0, 0)%Z ]}), [])] ∅ 1 0) =
          Ok (inl v') ∧
    ∃ others, pop (Dfs.stack v') =
      Some ([] ++ others,
            (((0, 0)%Z, {[ (0, 0)%Z ]} ∖ {[ (0, 0)%Z ]}), [] ++ [Act.V])).
Proof.
  pose (v0 := Dfs.Vars [(((0, 0)%Z, {[ (0, 0)%Z ]}), [])] ∅ 1 0).
  pose (v1 := Dfs.Vars [(((0, 0)%Z, {[ (0, 0)%Z ]} ∖ {[ (0, 0)%Z ]}), [Act.V])]
                ({[ state_id ((0, 0)%Z, {[ (0, 0)%Z ]}) ]} ∪ ∅) 2 1).
  assert (dfs_body (one_cell "_") v0 = Ok (inl v1)) as Hb.
  { vm_compute. reflexivity. }
  assert (pop (Dfs.stack v0) = Some ([], (((0, 0)%Z, {[ (0, 0)%Z ]}), []))) as Hpop.
  { reflexivity. }
  assert (¬ is_goal ((0, 0)%Z, {[ (0, 0)%Z ]})) as Hng.
  { intros Hgoal%size_zero_goal. vm_compute in Hgoal. discriminate Hgoal. }
  assert (state_id ((0, 0)%Z, {[ (0, 0)%Z ]}) ∉ Dfs.visited v0) as Hnin.
  { apply not_elem_of_empty. }
  assert ((0, 0)%Z ∈ ({[ (0, 0)%Z ]} : dirtyset)) as Hin.
  { by apply elem_of_singleton. }
  exists v1. split; [exact Hb|].
  exact (proj2 (proj2 (dfs_takes_last_child (one_cell "_") v0 v1 []
                         ((0, 0)%Z, {[ (0, 0)%Z ]}) [] Hpop Hng Hnin Hb)) Hin).
Defined.

